(** * HotSpot startup arguments: a shallow embedding of
      [hotspot/src/share/vm/runtime/arguments.hpp]

    The development has three parts.  Part I embeds the data model and the
    operations: the inline member functions of [arguments.hpp] are translated
    from their C++ bodies; the functions that the header only declares are
    modelled from the specification and say so in their doc comment.  Part II
    states and proves the properties the specification claims, Part III
    further properties of the inline code. *)

From Stdlib Require Import ZArith String Ascii List Lia Bool.
From stdpp Require Import base option list gmap strings.

Set Default Proof Using "Type".

(* ===================================================================== *)
(** * Part I: the embedding                                               *)
(* ===================================================================== *)

(** ** Outcomes of a call

    A C++ call either returns, stops the VM (a failed assertion or a fatal
    classification), runs into undefined behaviour (a dangling or null
    pointer dereferenced, a buffer overrun) or never leaves a loop. *)

Inductive outcome (A : Type) : Type :=
| Done (a : A)
| Fatal (msg : string)
| Undefined
| Diverges.

Arguments Done {A} a.
Arguments Fatal {A} msg.
Arguments Undefined {A}.
Arguments Diverges {A}.

Definition bind {A B : Type} (m : outcome A) (k : A -> outcome B) : outcome B :=
  match m with
  | Done a => k a
  | Fatal msg => Fatal msg
  | Undefined => Undefined
  | Diverges => Diverges
  end.

#[global] Instance outcome_ret : MRet outcome := fun A a => Done a.
#[global] Instance outcome_bind : MBind outcome := fun A B k m => bind m k.

(** Modelled from the spec: the [assert] macro of [utilities/debug.hpp] is
    not part of the sources at hand.  The specification treats a failed
    assertion as a fatal programming error (section 4.3: absence is a fatal
    condition, not a recoverable one), so a false condition stops the call
    with the assertion's message. *)
Definition assert (cond : bool) (msg : string) : outcome unit :=
  if cond then Done tt else Fatal msg.

(** ** [Arguments::ArgsRange] (arguments.hpp, lines 321-326) *)

Inductive ArgsRange : Set :=
| arg_unreadable
| arg_too_small
| arg_too_big
| arg_in_range.

Definition ArgsRange_code (r : ArgsRange) : Z :=
  match r with
  | arg_unreadable => -3
  | arg_too_small => -2
  | arg_too_big => -1
  | arg_in_range => 0
  end.

(** ** Classified failures (section 7 of the specification)

    The resolution functions return a [jint]; the header does not show the
    codes.  A fatal classification ends the pipeline. *)

(** Modelled from the spec: the fatal error kinds of section 7 (the warning
    classes are left out). *)
Inductive ErrorKind : Set :=
| MalformedToken
| UnknownOption
| ExpiredOption
| ObsoleteOption
| RangeError
| ConflictingSelection
| UnreconcilableBound
| ExpansionCycle
| ExpansionDepthExceeded.

(** Modelled from the spec: a stage either yields its result or stops the
    pipeline with one classified outcome. *)
Inductive result (A : Type) : Type :=
| Ok (a : A)
| Failed (e : ErrorKind).

Arguments Ok {A} a.
Arguments Failed {A} e.

#[global] Instance result_ret : MRet result := fun A a => Ok a.
#[global] Instance result_bind : MBind result :=
  fun A B k m => match m with Ok a => k a | Failed e => Failed e end.

(** ** Memory-size arguments (arguments.hpp, lines 513-516)

    The header declares [check_memory_size] and [parse_memory_size]; their
    bodies are in [arguments.cpp]. *)

Module MemorySize.
Local Open Scope Z_scope.

(** [julong] is an unsigned 64-bit integer. *)
Definition max_julong : Z := 2 ^ 64 - 1.

Definition K : Z := 1024.
Definition M : Z := K * K.
Definition G : Z := M * K.

(** Modelled from the spec: the pieces of [parse_memory_size] (section 4.1):
    decimal digits, the unit letters and the guarded multiplication. *)
Definition isdigit (c : ascii) : bool :=
  let n := Z.of_N (N_of_ascii c) in (48 <=? n) && (n <=? 57).

Definition digit_value (c : ascii) : Z := Z.of_N (N_of_ascii c) - 48.

(** Reads the longest prefix of decimal digits; returns its value (on top of
    [acc]) and the unread remainder. *)
Fixpoint scan_digits (s : string) (acc : Z) : Z * string :=
  match s with
  | String c rest =>
      if isdigit c then scan_digits rest (10 * acc + digit_value c) else (acc, s)
  | EmptyString => (acc, s)
  end.

Definition unit_multiplier (c : ascii) : option Z :=
  if (Ascii.eqb c "k" || Ascii.eqb c "K")%char then Some K
  else if (Ascii.eqb c "m" || Ascii.eqb c "M")%char then Some M
  else if (Ascii.eqb c "g" || Ascii.eqb c "G")%char then Some G
  else None.

(** The multiplication [n * unit] is not carried out when it would leave the
    64-bit range: the test divides instead. *)
Definition scale (n unit : Z) : option Z :=
  if max_julong / unit <? n then None else Some (n * unit).

(** What a call hands back: the status and, when a byte count was computed,
    the value stored through [long_arg]. *)
Record parse_result : Set := { status : ArgsRange; long_arg : option Z }.

(** Modelled from the spec: [Arguments::check_memory_size], declared at line
    514, body absent.  Section 4.1: the final byte count is compared against
    [min] and reported [too_small] if lower. *)
Definition check_memory_size (size min_size : Z) : ArgsRange :=
  if size <? min_size then arg_too_small else arg_in_range.

(** Modelled from the spec: [Arguments::parse_memory_size], declared at lines
    515-516, body absent.  Section 4.1: an unsigned decimal literal with an
    optional single-letter unit suffix (k/K, m/M, g/G) meaning x1024,
    x1024^2, x1024^3; malformed numerals, suffix-only and empty input are
    [unreadable]; a multiplication that would overflow is detected before it
    wraps and reported [too_big]; the final byte count is compared against
    [min]. *)
Definition parse_memory_size (s : string) (min_size : Z) : parse_result :=
  let unreadable := {| status := arg_unreadable; long_arg := None |} in
  let finish (n unit : Z) :=
    match scale n unit with
    | None => {| status := arg_too_big; long_arg := None |}
    | Some size =>
        {| status := check_memory_size size min_size; long_arg := Some size |}
    end in
  match s with
  | EmptyString => unreadable
  | String c _ =>
      if isdigit c then
        match scan_digits s 0 with
        | (n, EmptyString) => finish n 1
        | (n, String u EmptyString) =>
            match unit_multiplier u with
            | Some unit => finish n unit
            | None => unreadable
            end
        | (_, String _ (String _ _)) => unreadable
        end
      else unreadable
  end.

(** *** Vocabulary of the properties: what a memory-size literal denotes *)

Fixpoint all_digits (s : string) : bool :=
  match s with
  | EmptyString => true
  | String c rest => isdigit c && all_digits rest
  end.

Fixpoint horner (s : string) (acc : Z) : Z :=
  match s with
  | EmptyString => acc
  | String c rest => horner rest (10 * acc + digit_value c)
  end.

(** The number a string of decimal digits denotes. *)
Definition numeral_value (s : string) : Z := horner s 0.

(** The optional unit suffix and its multiplier. *)
Inductive unit_suffix : string -> Z -> Prop :=
| unit_none : unit_suffix "" 1
| unit_k : unit_suffix "k" 1024
| unit_K : unit_suffix "K" 1024
| unit_m : unit_suffix "m" (1024 * 1024)
| unit_M : unit_suffix "M" (1024 * 1024)
| unit_g : unit_suffix "g" (1024 * 1024 * 1024)
| unit_G : unit_suffix "G" (1024 * 1024 * 1024).

(** Where the scan stops: at the end of the text or in front of a character
    that is not a digit. *)
Definition stops (rest : string) : Prop :=
  match rest with
  | EmptyString => True
  | String c _ => isdigit c = false
  end.

(** A well-formed literal: at least one digit, then an optional unit. *)
Definition memory_size_literal (s : string) : Prop :=
  exists ds suffix unit,
    ds <> EmptyString /\ all_digits ds = true /\ unit_suffix suffix unit /\
    s = (ds ++ suffix)%string.

End MemorySize.

(** ** The boot class loader append index (arguments.hpp, lines 414-417 and
       672-681)

    [_bootclassloader_append_index] is a static [int]; the sentinel -1 means
    that no index was recorded yet. *)

Module BootAppend.
Local Open Scope Z_scope.

Record statics : Set := { _bootclassloader_append_index : Z }.

Definition bootclassloader_append_index (st : statics) : Z :=
  _bootclassloader_append_index st.

(** [static void set_bootclassloader_append_index(int value)] *)
Definition set_bootclassloader_append_index (value : Z) (st : statics) : statics :=
  if _bootclassloader_append_index st =? -1
  then {| _bootclassloader_append_index := value |}
  else st.

(** A sequence of calls, in program order. *)
Definition set_all (values : list Z) (st : statics) : statics :=
  fold_left (fun s v => set_bootclassloader_append_index v s) values st.

End BootAppend.

(** ** Merging the option sources (arguments.hpp, lines 502-506)

    [parse_vm_init_args] and [parse_each_vm_init_arg] are declared only. *)

Module OptionSources.

(** Modelled from the spec: where a token comes from (section 3,
    OptionToken). *)
Inductive Origin : Set :=
| ergonomic_default
| env_TOOL_OPTIONS
| env_OPTIONS
| options_file
| command_line.

(** Modelled from the spec: section 6, the sources in ascending
    precedence. *)
Definition precedence (o : Origin) : nat :=
  match o with
  | ergonomic_default => 1
  | env_TOOL_OPTIONS => 2
  | env_OPTIONS => 3
  | options_file => 4
  | command_line => 5
  end.

(** Modelled from the spec: the typed value of a flag (section 3). *)
Inductive FlagValue : Set :=
| bool_value (b : bool)
| size_value (n : Z)
| text_value (s : string).

(** Modelled from the spec: a resolved flag (section 3); the table is
    indexed by the canonical name, so there is one resolved value per name
    at any time. *)
Record ResolvedFlag : Set := { flag_value : FlagValue; flag_origin : Origin }.

Section merge.

(** Steps (a) to (d) of section 4.5 for one token: splitting, alias and
    obsolescence handling and value parsing produce the canonical name and
    the typed value, or a fatal classification.  The tables they consult
    are not part of the sources at hand. *)
Variable normalize : string -> result (string * FlagValue).

(** Modelled from the spec: step (e) of section 4.5 with the invariant of
    section 3: a later write with equal or higher precedence overwrites a
    former one; a write of lower precedence does not. *)
Definition record_flag (name : string) (v : FlagValue) (origin : Origin)
    (flags : gmap string ResolvedFlag) : gmap string ResolvedFlag :=
  let new := {| flag_value := v; flag_origin := origin |} in
  match flags !! name with
  | Some old =>
      if precedence (flag_origin old) <=? precedence origin
      then <[name := new]> flags else flags
  | None => <[name := new]> flags
  end.

(** Modelled from the spec: [parse_each_vm_init_arg(args, ..., origin)],
    declared at line 505: every token of one source is normalized and
    recorded, in order; the first fatal outcome stops the pipeline
    (section 7). *)
Fixpoint parse_each_vm_init_arg (args : list string) (origin : Origin)
    (flags : gmap string ResolvedFlag) : result (gmap string ResolvedFlag) :=
  match args with
  | [] => Ok flags
  | option :: rest =>
      '(name, v) ← normalize option;
      parse_each_vm_init_arg rest origin (record_flag name v origin flags)
  end.

(** Modelled from the spec: [parse_vm_init_args], declared at lines 502-504.
    Sections 4.6 and 6: first environment variable, second environment
    variable, command line, in ascending precedence. *)
Definition parse_vm_init_args (java_tool_options_args java_options_args
    cmd_line_args : list string) (flags : gmap string ResolvedFlag)
    : result (gmap string ResolvedFlag) :=
  flags ← parse_each_vm_init_arg java_tool_options_args env_TOOL_OPTIONS flags;
  flags ← parse_each_vm_init_arg java_options_args env_OPTIONS flags;
  parse_each_vm_init_arg cmd_line_args command_line flags.

(** *** Vocabulary of the properties *)

(** No entry outranks the origin [o]. *)
Definition outranked_by (o : Origin) (flags : gmap string ResolvedFlag)
    (name : string) : Prop :=
  forall old, flags !! name = Some old ->
              precedence (flag_origin old) <= precedence o.

(** The token sets the flag [name]. *)
Definition sets (name : string) (option : string) : Prop :=
  exists v, normalize option = Ok (name, v).

(** The value the last token for [name] in a source gives it. *)
Fixpoint last_setting (name : string) (args : list string) : option FlagValue :=
  match args with
  | [] => None
  | option :: rest =>
      match last_setting name rest with
      | Some v => Some v
      | None =>
          match normalize option with
          | Ok (n, v) => if String.eqb n name then Some v else None
          | Failed _ => None
          end
      end
  end.

End merge.

(** A sample normalization: [-XX:+Name] and [-XX:-Name] tokens of the two
    flags below, everything else unknown. *)
Definition sample_normalize (option : string) : result (string * FlagValue) :=
  if String.eqb option "-XX:+UseCompressedOops" then Ok ("UseCompressedOops"%string, bool_value true)
  else if String.eqb option "-XX:-UseCompressedOops" then Ok ("UseCompressedOops"%string, bool_value false)
  else if String.eqb option "-XX:+PrintFlagsFinal" then Ok ("PrintFlagsFinal"%string, bool_value true)
  else Failed UnknownOption.

End OptionSources.

(** ** Collector selection and heap sizing (arguments.hpp, lines 386-389,
       435-456 and 668-670)

    [select_gc], [set_conservative_max_heap_alignment] and [set_heap_size]
    are declared only. *)

Module Ergonomics.
Local Open Scope Z_scope.

(** Modelled from the spec: the supported collector kinds; the header names
    them in [set_parnew_gc_flags], [set_cms_and_parnew_gc_flags],
    [set_parallel_gc_flags] and [set_g1_gc_flags] (lines 435-441). *)
Inductive Collector : Set := Serial | Parallel | ConcMarkSweep | G1.

(** Modelled from the spec: section 3, the collector kinds plus an
    unselected state. *)
Inductive GCSelection : Set :=
| unselected
| selected (c : Collector).

(** Modelled from the spec: the explicit collector flags; the flag
    declarations are not part of the sources at hand. *)
Record CollectorFlags : Set := {
  UseSerialGC : bool;
  UseParallelGC : bool;
  UseConcMarkSweepGC : bool;
  UseG1GC : bool
}.

(** Modelled from the spec: the collectors whose flag is set. *)
Definition explicit_collectors (f : CollectorFlags) : list Collector :=
  (if UseSerialGC f then [Serial] else []) ++
  (if UseParallelGC f then [Parallel] else []) ++
  (if UseConcMarkSweepGC f then [ConcMarkSweep] else []) ++
  (if UseG1GC f then [G1] else []).

(** Modelled from the spec: what the OS-query collaborator reports
    (section 4.7). *)
Record OSQuery : Set := {
  processor_count : Z;
  physical_memory : Z;
  allocatable_memory : Z;
  large_page_size : Z
}.

(** Modelled from the spec: the explicit heap sizes, where given. *)
Record HeapFlags : Set := {
  MinHeapSize : option Z;
  InitialHeapSize : option Z;
  MaxHeapSize : option Z
}.

(** Modelled from the spec: the heap configuration of section 3. *)
Record HeapConfig : Set := {
  min_size : Z;
  initial_size : Z;
  max_size : Z;
  alignment : Z;
  compressed_oops : bool
}.

(** [enum Mode] (lines 314-319): the operation modes [-Xint], [-Xmixed] and
    [-Xcomp]. *)
Inductive Mode : Set := _int | _mixed | _comp.

(** Modelled from the spec: what the resolver reads: the resolved flags
    that matter to it and the OS collaborator. *)
Record Input := {
  collector_flags : CollectorFlags;
  heap_flags : HeapFlags;
  mode : Mode;
  explicit_flags : gmap string OptionSources.FlagValue;
  os : OSQuery
}.

(** Modelled from the spec: what the resolver has decided so far; the
    alignment and the minimum heap size are the statics of lines 387 and
    389. *)
Record State := {
  gc : GCSelection;
  _conservative_max_heap_alignment : option Z;
  _min_heap_size : Z;
  heap : option HeapConfig;
  flags : gmap string OptionSources.FlagValue
}.

Definition undecided : State :=
  {| gc := unselected; _conservative_max_heap_alignment := None;
     _min_heap_size := 0; heap := None; flags := ∅ |}.

Definition conservative_max_heap_alignment (st : State) : option Z :=
  _conservative_max_heap_alignment st.

(** [min_heap_size()] and [set_min_heap_size(size_t v)] (lines 669-670) *)
Definition min_heap_size (st : State) : Z := _min_heap_size st.

Definition set_min_heap_size (v : Z) (st : State) : State :=
  {| gc := gc st;
     _conservative_max_heap_alignment := _conservative_max_heap_alignment st;
     _min_heap_size := v; heap := heap st; flags := flags st |}.

Section resolver.

(** The heuristics over processor count and physical memory class, and the
    constants of the collectors and of compressed addressing, none of which
    the header shows. *)
Variable select_gc_ergonomically : OSQuery -> Collector.
Variable collector_granularity : Collector -> Z.
Variable compressed_oops_alignment : Z.
Variable max_heap_for_compressed_oops : Z.
Variables MinRAMFraction InitialRAMFraction MaxRAMFraction : Z.

(** Modelled from the spec: [gc_selected], declared at line 606: whether an
    explicit collector flag is set. *)
Definition gc_selected (f : CollectorFlags) : bool :=
  match explicit_collectors f with [] => false | _ :: _ => true end.

(** Modelled from the spec: [check_gc_consistency], declared at line 613:
    at most one explicit collector flag. *)
Definition check_gc_consistency (f : CollectorFlags) : bool :=
  match explicit_collectors f with
  | [] | [_] => true
  | _ :: _ :: _ => false
  end.

(** Modelled from the spec: [select_gc], declared at line 446.  Section 4.7,
    stage 1: more than one explicit collector flag is fatal; exactly one is
    used; with none the heuristics choose. *)
Definition select_gc (f : CollectorFlags) (os : OSQuery) : result Collector :=
  if check_gc_consistency f then
    match explicit_collectors f with
    | c :: _ => Ok c
    | [] => Ok (select_gc_ergonomically os)
    end
  else Failed ConflictingSelection.

(** Modelled from the spec: [limit_by_allocatable_memory], declared at line
    451: limits the given memory size by the maximum amount of memory this
    process is currently allowed to allocate or reserve. *)
Definition limit_by_allocatable_memory (os : OSQuery) (size : Z) : Z :=
  Z.min size (allocatable_memory os).

(** Modelled from the spec: section 4.7, stage 3: a fraction of the resource
    limit, capped so as not to exceed the memory the process can allocate. *)
Definition ergonomic_size (os : OSQuery) (fraction : Z) : Z :=
  limit_by_allocatable_memory os (physical_memory os / fraction).

(** Modelled from the spec: section 4.7, stage 3: the explicit flag where
    given, the ergonomic value otherwise. *)
Definition requested (explicit : option Z) (ergonomic : Z) : Z :=
  match explicit with Some v => v | None => ergonomic end.

(** Modelled from the spec: [set_use_compressed_oops], declared at line 444:
    eligibility is decided by the threshold on the maximum heap. *)
Definition set_use_compressed_oops (hf : HeapFlags) (os : OSQuery) : bool :=
  requested (MaxHeapSize hf) (ergonomic_size os MaxRAMFraction)
    <=? max_heap_for_compressed_oops.

(** Modelled from the spec: [set_conservative_max_heap_alignment], declared
    at line 443.  Section 4.7, stage 2: the least common multiple of the
    collector's granularity, the large-page size and the alignment of
    compressed addressing when it is enabled. *)
Definition set_conservative_max_heap_alignment (c : Collector) (os : OSQuery)
    (use_compressed_oops : bool) : Z :=
  Z.lcm (collector_granularity c)
    (Z.lcm (large_page_size os)
       (if use_compressed_oops then compressed_oops_alignment else 1)).

(** Modelled from the spec: section 4.7, stage 3, rounds each size up to
    the alignment. *)
Definition align_up (size alignment : Z) : Z :=
  (size + alignment - 1) / alignment * alignment.

(** Modelled from the spec: the three sizes as they are derived and rounded
    in section 4.7, stage 3, before they are reconciled. *)
Definition asked_min (hf : HeapFlags) (os : OSQuery) (a : Z) : Z :=
  align_up (requested (MinHeapSize hf) (ergonomic_size os MinRAMFraction)) a.

Definition asked_initial (hf : HeapFlags) (os : OSQuery) (a : Z) : Z :=
  align_up (requested (InitialHeapSize hf) (ergonomic_size os InitialRAMFraction)) a.

Definition asked_max (hf : HeapFlags) (os : OSQuery) (a : Z) : Z :=
  align_up (requested (MaxHeapSize hf) (ergonomic_size os MaxRAMFraction)) a.

(** Modelled from the spec: [set_heap_size], declared at line 453.  Section
    4.7, stage 3: the sizes come from the explicit flags where given and
    from a capped fraction of the resource limit otherwise; each is rounded
    up to the alignment; [min <= initial <= max] is enforced by raising
    [initial] and [max] to [min]; an explicit maximum below an explicit
    minimum is fatal.  A violation [initial > max] that the two raises
    leave cannot be corrected by the means the specification allows and is
    given the same classification. *)
Definition set_heap_size (hf : HeapFlags) (os : OSQuery) (alignment : Z)
    (use_compressed_oops : bool) : result HeapConfig :=
  let contradiction :=
    match MinHeapSize hf, MaxHeapSize hf with
    | Some mn, Some mx => mx <? mn
    | _, _ => false
    end in
  if contradiction then Failed UnreconcilableBound
  else
    let mn := asked_min hf os alignment in
    let ini := Z.max (asked_initial hf os alignment) mn in
    let mx := Z.max (asked_max hf os alignment) mn in
    if mx <? ini then Failed UnreconcilableBound
    else Ok {| min_size := mn; initial_size := ini; max_size := mx;
               alignment := alignment; compressed_oops := use_compressed_oops |}.

(** The default flag values that come with a collector and with a
    compilation mode, and the final check of the complete flag set; the
    flags they concern are not part of the sources at hand. *)
Variable collector_defaults : Collector -> gmap string OptionSources.FlagValue.
Variable mode_defaults : Mode -> gmap string OptionSources.FlagValue.
Variable check_vm_args_consistency :
  Collector -> gmap string OptionSources.FlagValue -> bool.

(** Modelled from the spec: the flag bundles of [set_gc_specific_flags] and
    [set_mode_flags] (declared at lines 605 and 409).  Section 4.7, stage 4:
    the defaults apply to the flags the user did not set; an explicit value
    is never overwritten (the union keeps the left value). *)
Definition set_mode_flag_bundles (c : Collector) (mode : Mode)
    (explicit : gmap string OptionSources.FlagValue)
    : gmap string OptionSources.FlagValue :=
  explicit ∪ collector_defaults c ∪ mode_defaults mode.

(** Modelled from the spec: [apply_ergo], declared at line 601.  Section
    4.7: the stages run in order, without backtracking; the first failure
    ends the resolution.  The result is the state reached and the failure,
    if any. *)
Definition apply_ergo (input : Input) : State * option ErrorKind :=
  let st := undecided in
  match select_gc (collector_flags input) (os input) with
  | Failed e => (st, Some e)
  | Ok c =>
      let st := {| gc := selected c;
                   _conservative_max_heap_alignment := _conservative_max_heap_alignment st;
                   _min_heap_size := _min_heap_size st; heap := heap st;
                   flags := flags st |} in
      let coops := set_use_compressed_oops (heap_flags input) (os input) in
      let a := set_conservative_max_heap_alignment c (os input) coops in
      let st := {| gc := gc st; _conservative_max_heap_alignment := Some a;
                   _min_heap_size := _min_heap_size st; heap := heap st;
                   flags := flags st |} in
      match set_heap_size (heap_flags input) (os input) a coops with
      | Failed e => (st, Some e)
      | Ok cfg =>
          let st := {| gc := gc st;
                       _conservative_max_heap_alignment :=
                         _conservative_max_heap_alignment st;
                       _min_heap_size := _min_heap_size st;
                       heap := Some cfg; flags := flags st |} in
          let st := set_min_heap_size (min_size cfg) st in
          let st := {| gc := gc st;
                       _conservative_max_heap_alignment :=
                         _conservative_max_heap_alignment st;
                       _min_heap_size := _min_heap_size st; heap := heap st;
                       flags := set_mode_flag_bundles c (mode input)
                                  (explicit_flags input) |} in
          if check_vm_args_consistency c (flags st) then (st, None)
          else (st, Some ConflictingSelection)
      end
  end.

End resolver.

(** *** Sample collaborators *)

Definition MB : Z := 1024 * 1024.

Definition sample_os : OSQuery :=
  {| processor_count := 4; physical_memory := 8192 * MB;
     allocatable_memory := 4096 * MB; large_page_size := 2 * MB |}.

Definition sample_heuristics (os : OSQuery) : Collector :=
  if (2 <=? processor_count os) && (2048 * MB <=? physical_memory os)
  then G1 else Serial.

Definition sample_granularity (c : Collector) : Z :=
  match c with G1 => MB | _ => 64 * 1024 end.

Definition sample_input (serial parallel cms g1 : bool) : Input :=
  {| collector_flags := {| UseSerialGC := serial; UseParallelGC := parallel;
                           UseConcMarkSweepGC := cms; UseG1GC := g1 |};
     heap_flags := {| MinHeapSize := None; InitialHeapSize := None;
                      MaxHeapSize := None |};
     mode := _mixed; explicit_flags := ∅; os := sample_os |}.

End Ergonomics.

(** ** Path strings and system properties (arguments.hpp, lines 44-187)

    A [PathString] owns a character buffer on the C heap.  The buffers are
    kept in a store indexed by address, so that freeing, allocating and
    aliasing are visible. *)

Module Paths.

(** A [char*]: NULL, the address of a buffer handed out by [AllocateHeap],
    or the address of a string that lives elsewhere (a literal, a piece of
    [argv]) and is not managed by the C heap. *)
Inductive char_ptr : Set :=
| NULL
| heap_ptr (a : positive)
| static_ptr (s : string).

#[global] Instance char_ptr_eq_dec : EqDecision char_ptr.
Proof. solve_decision. Defined.

(** A buffer of [capacity] bytes; [text] is the NUL-terminated string it
    holds, [None] while nothing was written to it. *)
Record buffer : Set := { capacity : nat; text : option string }.

(** The C heap: the live buffers and the number of bytes the allocator can
    still hand out. *)
Record cheap : Set := { buffers : gmap positive buffer; available : nat }.

(** Modelled from the spec: [AllocateHeap] and [FreeHeap] of
    [memory/allocation.hpp] are not part of the sources at hand.  The callers
    below test the result against NULL, so an allocation either yields a
    buffer at an address that is not in use or fails with NULL; section 4.1
    calls the result a new buffer and the freed one discarded. *)
Definition AllocateHeap (size : nat) (h : cheap) : char_ptr * cheap :=
  if size <=? available h then
    let a := fresh (dom (buffers h)) in
    (heap_ptr a,
     {| buffers := <[a := {| capacity := size; text := None |}]> (buffers h);
        available := available h - size |})
  else (NULL, h).

(** Modelled from the spec: [FreeHeap] gives a buffer of the C heap back;
    anything else than such a buffer or NULL is not its to free. *)
Definition FreeHeap (p : char_ptr) (h : cheap) : outcome cheap :=
  match p with
  | heap_ptr a =>
      match buffers h !! a with
      | Some b => Done {| buffers := delete a (buffers h);
                          available := available h + capacity b |}
      | None => Undefined
      end
  | NULL => Done h
  | static_ptr _ => Undefined
  end.

(** The string a [char*] points at. *)
Definition read (h : cheap) (p : char_ptr) : outcome string :=
  match p with
  | NULL => Undefined
  | static_ptr s => Done s
  | heap_ptr a =>
      match buffers h !! a with
      | Some {| text := Some s |} => Done s
      | _ => Undefined
      end
  end.

(** Writing the string [s] and its terminating NUL into the buffer at [dst]. *)
Definition write (dst : char_ptr) (s : string) (h : cheap) : outcome cheap :=
  match dst with
  | heap_ptr a =>
      match buffers h !! a with
      | Some b =>
          if String.length s + 1 <=? capacity b
          then Done {| buffers := <[a := {| capacity := capacity b; text := Some s |}]>
                                    (buffers h);
                       available := available h |}
          else Undefined
      | None => Undefined
      end
  | _ => Undefined
  end.

Definition strlen (h : cheap) (p : char_ptr) : outcome nat :=
  s ← read h p; Done (String.length s).

Definition strcpy (dst src : char_ptr) (h : cheap) : outcome cheap :=
  s ← read h src;
  if bool_decide (dst = src) then Undefined else write dst s h.

Definition strcat (dst src : char_ptr) (h : cheap) : outcome cheap :=
  d ← read h dst;
  s ← read h src;
  if bool_decide (dst = src) then Undefined else write dst (d ++ s) h.

(** *** [class PathString] *)

Record PathString : Set := { _value : char_ptr }.

Definition value (this : PathString) : char_ptr := _value this.

(** [bool set_value(const char *value)] *)
Definition set_value (value : char_ptr) (this : PathString) (h : cheap)
    : outcome (bool * PathString * cheap) :=
  h ← (if bool_decide (_value this ≠ NULL) then FreeHeap (_value this) h else Done h);
  len ← strlen h value;
  let '(p, h) := AllocateHeap (len + 1) h in
  let this := {| _value := p |} in
  _ ← assert (bool_decide (_value this ≠ NULL))
        "Unable to allocate space for new path value";
  if bool_decide (_value this ≠ NULL) then
    h ← strcpy (_value this) value h;
    Done (true, this, h)
  else
    (* not able to allocate *)
    Done (false, this, h).

Section append.

(** [os::path_separator()] of [runtime/os.hpp], which is not part of the
    sources at hand: the platform's path separator, a string constant. *)
Variable path_separator : string.

(** [void append_value(const char *value)].  The lengths are [size_t]; the
    sum of the lengths of two strings that are in memory, plus two, stays
    below 2^64, so the additions do not wrap. *)
Definition append_value (value : char_ptr) (this : PathString) (h : cheap)
    : outcome (PathString * cheap) :=
  if bool_decide (value ≠ NULL) then
    len ← strlen h value;
    len ← (if bool_decide (_value this ≠ NULL)
           then n ← strlen h (_value this); Done (len + n)
           else Done len);
    let '(sp, h) := AllocateHeap (len + 2) h in
    _ ← assert (bool_decide (sp ≠ NULL))
          "Unable to allocate space for new append path value";
    if bool_decide (sp ≠ NULL) then
      h ← (if bool_decide (_value this ≠ NULL) then
             h ← strcpy sp (_value this) h;
             h ← strcat sp (static_ptr path_separator) h;
             h ← strcat sp value h;
             FreeHeap (_value this) h
           else strcpy sp value h);
      Done ({| _value := sp |}, h)
    else Done (this, h)
  else Done (this, h).

End append.

(** [PathString(const char* value)] *)
Definition new_PathString (value : char_ptr) (h : cheap) : outcome (PathString * cheap) :=
  if bool_decide (value = NULL) then Done ({| _value := NULL |}, h)
  else
    len ← strlen h value;
    let '(p, h) := AllocateHeap (len + 1) h in
    h ← strcpy p value h;
    Done ({| _value := p |}, h).

(** *** [class SystemProperty : public PathString] *)

Record SystemProperty : Set := {
  super : PathString;
  _key : option string;
  _next : option positive;
  _internal : bool;
  _writeable : bool
}.

Definition writeable (this : SystemProperty) : bool := _writeable this.
Definition key (this : SystemProperty) : option string := _key this.
Definition internal (this : SystemProperty) : bool := _internal this.
Definition next (this : SystemProperty) : option positive := _next this.

Definition set_next (next : option positive) (this : SystemProperty) : SystemProperty :=
  {| super := super this; _key := _key this; _next := next;
     _internal := _internal this; _writeable := _writeable this |}.

(** The [PathString] part of the object after a base-class call. *)
Definition with_super (ps : PathString) (this : SystemProperty) : SystemProperty :=
  {| super := ps; _key := _key this; _next := _next this;
     _internal := _internal this; _writeable := _writeable this |}.

(** [bool set_writeable_value(const char *value)] *)
Definition set_writeable_value (value : char_ptr) (this : SystemProperty) (h : cheap)
    : outcome (bool * SystemProperty * cheap) :=
  if writeable this then
    '(r, ps, h) ← set_value value (super this) h;
    Done (r, with_super ps this, h)
  else Done (false, this, h).

(** The string a property holds, if it holds one. *)
Definition stored (h : cheap) (this : PathString) : outcome string :=
  read h (_value this).

(** A sample heap with one buffer, and a property that owns it. *)
Definition sample_heap : cheap :=
  {| buffers := {[ 1%positive := {| capacity := 5; text := Some "/a/b"%string |} ]};
     available := 64 |}.

Definition sample_property (w : bool) : SystemProperty :=
  {| super := {| _value := heap_ptr 1 |}; _key := Some "java.class.path"%string;
     _next := None; _internal := false; _writeable := w |}.

(** *** Further members *)

(** [~PathString()] *)
Definition destroy_PathString (this : PathString) (h : cheap)
    : outcome (PathString * cheap) :=
  if bool_decide (_value this ≠ NULL) then
    h ← FreeHeap (_value this) h;
    Done ({| _value := NULL |}, h)
  else Done (this, h).

(** The quick accessors of [class Arguments] (lines 343-348): static
    pointers to property objects, NULL until the properties are set up. *)
Record properties : Set := {
  objects : gmap positive SystemProperty;
  _sun_boot_library_path : option positive;
  _java_library_path : option positive;
  _java_home : option positive;
  _java_class_path : option positive;
  _jdk_boot_class_path_append : option positive
}.

Definition with_objects (objs : gmap positive SystemProperty) (st : properties)
    : properties :=
  {| objects := objs;
     _sun_boot_library_path := _sun_boot_library_path st;
     _java_library_path := _java_library_path st;
     _java_home := _java_home st;
     _java_class_path := _java_class_path st;
     _jdk_boot_class_path_append := _jdk_boot_class_path_append st |}.

(** [p->set_value(value)] with the result dropped, and [p->value()]. *)
Definition call_set_value (p : option positive) (value : char_ptr)
    (st : properties) (h : cheap) : outcome (properties * cheap) :=
  match p with
  | None => Undefined
  | Some a =>
      match objects st !! a with
      | None => Undefined
      | Some this =>
          '(_, ps, h) ← set_value value (super this) h;
          Done (with_objects (<[a := with_super ps this]> (objects st)) st, h)
      end
  end.

Definition call_value (p : option positive) (st : properties) : outcome char_ptr :=
  match p with
  | None => Undefined
  | Some a =>
      match objects st !! a with
      | None => Undefined
      | Some this => Done (value (super this))
      end
  end.

Definition set_dll_dir (value : char_ptr) (st : properties) (h : cheap)
    : outcome (properties * cheap) :=
  call_set_value (_sun_boot_library_path st) value st h.
Definition set_java_home (value : char_ptr) (st : properties) (h : cheap)
    : outcome (properties * cheap) :=
  call_set_value (_java_home st) value st h.
Definition set_library_path (value : char_ptr) (st : properties) (h : cheap)
    : outcome (properties * cheap) :=
  call_set_value (_java_library_path st) value st h.

Definition get_jdk_boot_class_path_append (st : properties) : outcome char_ptr :=
  call_value (_jdk_boot_class_path_append st) st.
Definition get_java_home (st : properties) : outcome char_ptr :=
  call_value (_java_home st) st.
Definition get_dll_dir (st : properties) : outcome char_ptr :=
  call_value (_sun_boot_library_path st) st.
Definition get_appclasspath (st : properties) : outcome char_ptr :=
  call_value (_java_class_path st) st.

(** Sample property objects: a read-only [java.home] that owns the buffer of
    [sample_heap], and a library path that holds nothing yet. *)
Definition sample_properties : properties :=
  {| objects :=
       {[ 1%positive := {| super := {| _value := heap_ptr 1 |};
                           _key := Some "java.home"%string;
                           _next := Some 2%positive;
                           _internal := false; _writeable := false |};
          2%positive := {| super := {| _value := NULL |};
                           _key := Some "sun.boot.library.path"%string;
                           _next := None;
                           _internal := false; _writeable := true |} ]};
     _sun_boot_library_path := Some 2%positive;
     _java_library_path := None;
     _java_home := Some 1%positive;
     _java_class_path := None;
     _jdk_boot_class_path_append := None |}.

End Paths.

(** ** The property list (arguments.hpp, lines 341-342 and 721-732)

    The header declares the [PropertyList_*] functions and defines only the
    three-argument [PropertyList_unique_add], which calls the four-argument
    one with [append = false].  Following sections 3 and 9 of the
    specification the list is an ordered sequence of properties and a
    property owns its key and value as strings. *)

Module PropertyList.

(** Modelled from the spec: a property as section 3 describes it (key,
    value, writeable flag, internal flag), for the list functions whose
    bodies are absent. *)
Record SystemProperty : Set := {
  key : string;
  value : string;
  writeable : bool;
  internal : bool
}.

(** Modelled from the spec: section 4.2, replacing the value of a node. *)
Definition set_value (v : string) (p : SystemProperty) : SystemProperty :=
  {| key := key p; value := v; writeable := writeable p; internal := internal p |}.

Section unique_add.

(** The platform's path separator ([os::path_separator()]). *)
Variable path_separator : string.

(** Modelled from the spec: sections 4.1 and 4.2, appending with the path
    separator convention: the new path is joined to the existing one by the
    separator. *)
Definition append_value (v : string) (p : SystemProperty) : SystemProperty :=
  {| key := key p; value := (value p ++ path_separator ++ v)%string;
     writeable := writeable p; internal := internal p |}.

(** Modelled from the spec: [PropertyList_add(plist, k, v)], declared at line
    724, body absent: a new node is appended at the tail.  The
    specification does not fix the flags of the new node; it is created as
    a writeable property, with the constructor's default [internal = false]
    (line 176). *)
Definition PropertyList_add (plist : list SystemProperty) (k v : string)
    : list SystemProperty :=
  plist ++ [{| key := k; value := v; writeable := true; internal := false |}].

(** Modelled from the spec: the four-argument [PropertyList_unique_add],
    declared at line 728, body absent.  Section 4.2: scans the ordered list
    for an existing node with [key]; if found and [append] is set, appends
    with the path separator convention; if found and [append] is not set,
    replaces the value; if not found, appends a new node at the tail. *)
Fixpoint PropertyList_unique_add (plist : list SystemProperty) (k v : string)
    (append : bool) : list SystemProperty :=
  match plist with
  | [] => PropertyList_add [] k v
  | prop :: rest =>
      if String.eqb k (key prop)
      then (if append then append_value v prop else set_value v prop) :: rest
      else prop :: PropertyList_unique_add rest k v append
  end.

(** The three-argument overload (lines 725-727). *)
Definition PropertyList_unique_add3 (plist : list SystemProperty) (k v : string)
    : list SystemProperty :=
  PropertyList_unique_add plist k v false.

End unique_add.

(** Modelled from the spec: [PropertyList_get_value], declared at line 729:
    the value of the first match, or nothing. *)
Fixpoint PropertyList_get_value (plist : list SystemProperty) (k : string)
    : option string :=
  match plist with
  | [] => None
  | prop :: rest =>
      if String.eqb k (key prop) then Some (value prop)
      else PropertyList_get_value rest k
  end.

(** *** Vocabulary of the properties *)

Definition keys (plist : list SystemProperty) : list string := map key plist.

(** The invariant of the data model: a key occurs at most once. *)
Definition unique_keys (plist : list SystemProperty) : Prop := NoDup (keys plist).

(** The positions of the nodes with key [k]. *)
Definition holds_key (plist : list SystemProperty) (k : string) (i : nat) : Prop :=
  exists p, plist !! i = Some p /\ key p = k.

(** A sample list. *)
Definition sample_list : list SystemProperty :=
  [ {| key := "java.home"; value := "/jdk"; writeable := true; internal := false |};
    {| key := "java.class.path"; value := "."; writeable := true; internal := false |};
    {| key := "user.dir"; value := "/tmp"; writeable := true; internal := false |} ].

End PropertyList.

(** ** Agent libraries (arguments.hpp, lines 190-291, 391-405, 683-692)

    [AgentLibrary] objects live on the C heap and are chained through their
    [_next] pointers; both [-Xrun] libraries and [-agentlib] agents are kept
    in an [AgentLibraryList].  A pointer is [None] (NULL) or an address; the
    store maps the addresses of the live objects to their contents, so that
    two lists that mention one address share the object. *)

Module Agents.

Abbreviation addr := positive (only parsing).
Abbreviation ptr := (option positive) (only parsing).

Inductive AgentState : Set :=
| agent_invalid
| agent_valid.

Record AgentLibrary : Set := {
  _name : string;
  _options : option string;
  _os_lib : Z;
  _is_absolute_path : bool;
  _is_static_lib : bool;
  _state : AgentState;
  _next : ptr
}.

Abbreviation store := (gmap positive AgentLibrary) (only parsing).

(** Accessors *)
Definition name (a : AgentLibrary) : string := _name a.
Definition options (a : AgentLibrary) : option string := _options a.
Definition is_absolute_path (a : AgentLibrary) : bool := _is_absolute_path a.
Definition os_lib (a : AgentLibrary) : Z := _os_lib a.
Definition next (a : AgentLibrary) : ptr := _next a.
Definition is_static_lib (a : AgentLibrary) : bool := _is_static_lib a.
Definition valid (a : AgentLibrary) : bool :=
  match _state a with agent_valid => true | agent_invalid => false end.

Definition set_os_lib (os_lib : Z) (a : AgentLibrary) : AgentLibrary :=
  {| _name := _name a; _options := _options a; _os_lib := os_lib;
     _is_absolute_path := _is_absolute_path a;
     _is_static_lib := _is_static_lib a; _state := _state a; _next := _next a |}.

Definition set_static_lib (is_static_lib : bool) (a : AgentLibrary) : AgentLibrary :=
  {| _name := _name a; _options := _options a; _os_lib := _os_lib a;
     _is_absolute_path := _is_absolute_path a;
     _is_static_lib := is_static_lib; _state := _state a; _next := _next a |}.

Definition set_state (s : AgentState) (a : AgentLibrary) : AgentLibrary :=
  {| _name := _name a; _options := _options a; _os_lib := _os_lib a;
     _is_absolute_path := _is_absolute_path a;
     _is_static_lib := _is_static_lib a; _state := s; _next := _next a |}.

Definition set_valid : AgentLibrary -> AgentLibrary := set_state agent_valid.
Definition set_invalid : AgentLibrary -> AgentLibrary := set_state agent_invalid.

(** The assignment [a->_next = p]. *)
Definition set_next (p : ptr) (a : AgentLibrary) : AgentLibrary :=
  {| _name := _name a; _options := _options a; _os_lib := _os_lib a;
     _is_absolute_path := _is_absolute_path a;
     _is_static_lib := _is_static_lib a; _state := _state a; _next := p |}.

(** Constructor *)
Definition new_AgentLibrary (name : string) (options : option string)
    (is_absolute_path : bool) (os_lib : Z) : AgentLibrary :=
  {| _name := name; _options := options; _os_lib := os_lib;
     _is_absolute_path := is_absolute_path;
     _is_static_lib := false; _state := agent_invalid; _next := None |}.

(** Reading through a pointer, and writing the [_next] field through one. *)
Definition load (h : store) (p : ptr) : outcome AgentLibrary :=
  match p with
  | None => Undefined
  | Some a => match h !! a with Some n => Done n | None => Undefined end
  end.

Definition store_next (p q : ptr) (h : store) : outcome store :=
  match p with
  | None => Undefined
  | Some a =>
      match h !! a with
      | Some n => Done (<[a := set_next q n]> h)
      | None => Undefined
      end
  end.

(** *** [class AgentLibraryList] *)

Record AgentLibraryList : Set := { _first : ptr; _last : ptr }.

Definition empty_list : AgentLibraryList := {| _first := None; _last := None |}.

Definition is_empty (l : AgentLibraryList) : bool := bool_decide (_first l = None).
Definition first (l : AgentLibraryList) : ptr := _first l.

(** [void add(AgentLibrary* lib)]: add to the end of the list *)
Definition add (lib : ptr) (l : AgentLibraryList) (h : store)
    : outcome (AgentLibraryList * store) :=
  '(l1, h1) ← (if is_empty l
               then Done ({| _first := lib; _last := lib |}, h)
               else h' ← store_next (_last l) lib h;
                    Done ({| _first := _first l; _last := lib |}, h'));
  h2 ← store_next lib None h1;
  Done (l1, h2).

(** The [for] loop of [remove]: returns [curr] and [prev] as they are when
    the loop is left.  Every turn of the loop that does not leave it costs
    one unit of [fuel]. *)
Fixpoint remove_scan (fuel : nat) (h : store) (lib curr prev : ptr)
    : outcome (ptr * ptr) :=
  match curr with
  | None => Done (curr, prev)
  | Some _ =>
      if bool_decide (curr = lib) then Done (curr, prev)
      else match fuel with
           | O => Diverges
           | S fuel' =>
               n ← load h curr;
               remove_scan fuel' h lib (next n) curr
           end
  end.

(** [void remove(AgentLibrary* lib)]: search for and remove a library known
    to be in the list.  A scan that has read more objects than the store
    holds has read one of them twice: it is in a cycle and never ends. *)
Definition remove (lib : ptr) (l : AgentLibraryList) (h : store)
    : outcome (AgentLibraryList * store) :=
  '(curr, prev) ← remove_scan (S (size h)) h lib (first l) None;
  _ ← assert (bool_decide (curr ≠ None)) "always should be found";
  if bool_decide (curr ≠ None) then
    c ← load h curr;
    '(l1, h1) ← (if bool_decide (prev = None)
                 then Done ({| _first := _next c; _last := _last l |}, h)
                 else h' ← store_next prev (_next c) h; Done (l, h'));
    let l2 := if bool_decide (curr = _last l1)
              then {| _first := _first l1; _last := prev |} else l1 in
    h2 ← store_next curr None h1;
    Done (l2, h2)
  else Done (l, h).

(** *** The two lists of [class Arguments] *)

Record statics : Set := {
  heap : store;
  _libraryList : AgentLibraryList;
  _agentList : AgentLibraryList
}.

Definition initial : statics :=
  {| heap := ∅; _libraryList := empty_list; _agentList := empty_list |}.

(** [new AgentLibrary(...)] at an address that is not in use. *)
Definition new (a : AgentLibrary) (h : store) : positive * store :=
  let p := fresh (dom h) in (p, <[p := a]> h).

Definition add_init_library (name : string) (options : option string)
    (st : statics) : outcome statics :=
  let '(p, h) := new (new_AgentLibrary name options false 0) (heap st) in
  '(l, h') ← add (Some p) (_libraryList st) h;
  Done {| heap := h'; _libraryList := l; _agentList := _agentList st |}.

Definition add_init_agent (name : string) (options : option string)
    (absolute_path : bool) (st : statics) : outcome statics :=
  let '(p, h) := new (new_AgentLibrary name options absolute_path 0) (heap st) in
  '(l, h') ← add (Some p) (_agentList st) h;
  Done {| heap := h'; _libraryList := _libraryList st; _agentList := l |}.

Definition add_loaded_agent (agentLib : ptr) (st : statics) : outcome statics :=
  '(l, h') ← add agentLib (_agentList st) (heap st);
  Done {| heap := h'; _libraryList := _libraryList st; _agentList := l |}.

Definition libraries (st : statics) : ptr := first (_libraryList st).
Definition init_libraries_at_startup (st : statics) : bool :=
  negb (is_empty (_libraryList st)).
Definition agents (st : statics) : ptr := first (_agentList st).
Definition init_agents_at_startup (st : statics) : bool :=
  negb (is_empty (_agentList st)).

(** [static void convert_library_to_agent(AgentLibrary* lib)] *)
Definition convert_library_to_agent (lib : ptr) (st : statics) : outcome statics :=
  '(ll, h1) ← remove lib (_libraryList st) (heap st);
  '(al, h2) ← add lib (_agentList st) h1;
  Done {| heap := h2; _libraryList := ll; _agentList := al |}.

(** *** Vocabulary of the properties *)

(** [seg h p xs q]: following [_next] from [p] visits exactly the objects at
    the addresses [xs], in this order, and arrives at [q]. *)
Fixpoint seg (h : store) (p : ptr) (xs : list positive) (q : ptr) : Prop :=
  match xs with
  | [] => p = q
  | x :: rest => p = Some x /\ exists n, h !! x = Some n /\ seg h (_next n) rest q
  end.

(** The list [l] holds the objects [xs]: its chain runs from [_first] to
    NULL and [_last] points at the final object. *)
Definition is_list (h : store) (l : AgentLibraryList) (xs : list positive) : Prop :=
  seg h (_first l) xs None /\ _last l = last xs.

(** Walking a list as [for (a = first; a != NULL; a = a->next())] does. *)
Fixpoint walk (fuel : nat) (h : store) (p : ptr) : list positive :=
  match fuel, p with
  | S fuel', Some a =>
      a :: match h !! a with Some n => walk fuel' h (_next n) | None => [] end
  | _, _ => []
  end.

(** [prev] after the loop of [remove] has passed the objects [xs]. *)
Definition prev_after (xs : list positive) (prev : ptr) : ptr :=
  match last xs with Some z => Some z | None => prev end.

(** How often an address occurs in a list. *)
Definition occurrences (x : positive) (xs : list positive) : nat :=
  length (filter (fun a => x = a) xs).

(** Everything a descriptor carries besides its link. *)
Definition descriptor (a : AgentLibrary)
    : string * option string * bool * bool * AgentState * Z :=
  (_name a, _options a, _is_absolute_path a, _is_static_lib a, _state a, _os_lib a).

(** A sample state: two [-Xrun] libraries and one [-agentpath] agent. *)
Definition sample : statics :=
  {| heap := <[1%positive := set_next (Some 2%positive)
                               (new_AgentLibrary "jdwp" (Some "transport=dt_socket"%string) false 0)]>
             (<[2%positive := new_AgentLibrary "hprof" None false 0]>
             (<[3%positive := new_AgentLibrary "instrument" (Some "agent.jar"%string) true 0]> ∅));
     _libraryList := {| _first := Some 1%positive; _last := Some 2%positive |};
     _agentList := {| _first := Some 3%positive; _last := Some 3%positive |} |}.

(** *** Further members *)

(** The four-argument [add_loaded_agent] (lines 404-405), for late-binding
    agents: the descriptor is created with the handle of the loaded unit. *)
Definition add_loaded_agent_new (name : string) (options : option string)
    (absolute_path : bool) (os_lib : Z) (st : statics) : outcome statics :=
  let '(p, h) := new (new_AgentLibrary name options absolute_path os_lib) (heap st) in
  '(l, h') ← add (Some p) (_agentList st) h;
  Done {| heap := h'; _libraryList := _libraryList st; _agentList := l |}.

(** A call of one of the setters through a pointer, as in
    [lib->set_valid()] or [lib->set_os_lib(handle)]. *)
Definition invoke (f : AgentLibrary -> AgentLibrary) (p : ptr) (h : store)
    : outcome store :=
  match p with
  | None => Undefined
  | Some a =>
      match h !! a with
      | Some n => Done (<[a := f n]> h)
      | None => Undefined
      end
  end.

(** The setters of lines 216-222. *)
Inductive setter : Set :=
| call_set_os_lib (os_lib : Z)
| call_set_static_lib (is_static_lib : bool)
| call_set_valid
| call_set_invalid.

Definition run_setter (s : setter) : AgentLibrary -> AgentLibrary :=
  match s with
  | call_set_os_lib v => set_os_lib v
  | call_set_static_lib b => set_static_lib b
  | call_set_valid => set_valid
  | call_set_invalid => set_invalid
  end.

(** A state with a cycle in the library list: the second object points back
    at the first. *)
Definition sample_cyclic : statics :=
  {| heap := <[1%positive := set_next (Some 2%positive)
                               (new_AgentLibrary "jdwp" None false 0)]>
             (<[2%positive := set_next (Some 1%positive)
                               (new_AgentLibrary "hprof" None false 0)]>
             (<[3%positive := new_AgentLibrary "instrument" None true 0]> ∅));
     _libraryList := {| _first := Some 1%positive; _last := Some 2%positive |};
     _agentList := {| _first := Some 3%positive; _last := Some 3%positive |} |}.

(** Converting the libraries [order] one after the other. *)
Fixpoint convert_all (order : list positive) (st : statics) : outcome statics :=
  match order with
  | [] => Done st
  | lib :: rest => st' ← convert_library_to_agent (Some lib) st; convert_all rest st'
  end.

(** Both lists are chains that end in NULL, and no object is on both. *)
Definition well_formed (st : statics) : Prop :=
  exists libs ags,
    is_list (heap st) (_libraryList st) libs /\
    is_list (heap st) (_agentList st) ags /\
    (forall a, a ∈ libs -> a ∉ ags).

(** The calls a client can make without holding a descriptor of its own:
    the three that allocate one, and the conversion with any pointer. *)
Inductive call : Set :=
| call_add_init_library (name : string) (options : option string)
| call_add_init_agent (name : string) (options : option string) (absolute_path : bool)
| call_add_loaded_agent (name : string) (options : option string)
    (absolute_path : bool) (os_lib : Z)
| call_convert_library_to_agent (lib : ptr).

Definition run_call (c : call) (st : statics) : outcome statics :=
  match c with
  | call_add_init_library name options => add_init_library name options st
  | call_add_init_agent name options absolute_path =>
      add_init_agent name options absolute_path st
  | call_add_loaded_agent name options absolute_path os_lib =>
      add_loaded_agent_new name options absolute_path os_lib st
  | call_convert_library_to_agent lib => convert_library_to_agent lib st
  end.

Fixpoint run (cs : list call) (st : statics) : outcome statics :=
  match cs with
  | [] => Done st
  | c :: rest => st' ← run_call c st; run rest st'
  end.

End Agents.

(* ===================================================================== *)
(** * Part II: properties                                                 *)
(* ===================================================================== *)

Module BootAppendFacts.
Import BootAppend.
Local Open Scope Z_scope.

Lemma set_index_unfold value st :
  bootclassloader_append_index (set_bootclassloader_append_index value st) =
  if bootclassloader_append_index st =? -1 then value
  else bootclassloader_append_index st.
Proof.
  unfold set_bootclassloader_append_index, bootclassloader_append_index.
  destruct (_ =? _); reflexivity.
Qed.

Lemma set_index_frozen value st :
  bootclassloader_append_index st <> -1 ->
  set_bootclassloader_append_index value st = st.
Proof.
  unfold set_bootclassloader_append_index, bootclassloader_append_index.
  intros H. destruct (Z.eqb_spec (_bootclassloader_append_index st) (-1)); congruence.
Qed.

Lemma set_all_frozen values st :
  bootclassloader_append_index st <> -1 ->
  set_all values st = st.
Proof.
  revert st. induction values as [|v vs IH]; intros st H; simpl; [reflexivity|].
  unfold set_all in *. simpl. rewrite (set_index_frozen v st H). apply IH, H.
Qed.

(** C10, as stated, fails: a first call that passes the sentinel itself
    leaves the index at -1, and the next call still changes it, so it is not
    true that every call after the first leaves the stored index unchanged. *)
Lemma bootclassloader_append_index_first_set_can_lose :
  ~ (forall (v w : Z) (st : statics),
       bootclassloader_append_index st = -1 ->
       bootclassloader_append_index
         (set_bootclassloader_append_index w (set_bootclassloader_append_index v st)) =
       bootclassloader_append_index (set_bootclassloader_append_index v st)).
Proof.
  intros H.
  specialize (H (-1) 5 {| _bootclassloader_append_index := -1 |} eq_refl).
  vm_compute in H. discriminate H.
Qed.

(** C10 (amended): [set_bootclassloader_append_index v] stores [v] exactly
    when the current index is the sentinel -1 and otherwise leaves the state
    as it is; once a call has stored a value other than -1, every later
    sequence of calls leaves the stored index unchanged. *)
Theorem bootclassloader_append_index_write_once :
  forall (v : Z) (st : statics) (later : list Z),
    (bootclassloader_append_index st = -1 ->
       bootclassloader_append_index (set_bootclassloader_append_index v st) = v) /\
    (bootclassloader_append_index st <> -1 ->
       set_bootclassloader_append_index v st = st) /\
    (bootclassloader_append_index st = -1 -> v <> -1 ->
       bootclassloader_append_index
         (set_all later (set_bootclassloader_append_index v st)) = v).
Proof.
  intros v st later. split; [|split].
  - intros H. rewrite set_index_unfold, H. reflexivity.
  - apply set_index_frozen.
  - intros H Hv.
    assert (Hs : bootclassloader_append_index (set_bootclassloader_append_index v st) = v)
      by (rewrite set_index_unfold, H; reflexivity).
    rewrite set_all_frozen; [exact Hs | rewrite Hs; exact Hv].
Qed.

Lemma bootclassloader_append_index_write_once_witness :
  bootclassloader_append_index
    (set_all (7 :: -1 :: 9 :: nil)
       (set_bootclassloader_append_index 3 {| _bootclassloader_append_index := -1 |})) = 3.
Proof.
  apply (bootclassloader_append_index_write_once 3
           {| _bootclassloader_append_index := -1 |} (7 :: -1 :: 9 :: nil)).
  - reflexivity.
  - discriminate.
Defined.

End BootAppendFacts.

Module MemorySizeFacts.
Import MemorySize.
Local Open Scope Z_scope.

(** The examples of section 8 of the specification. *)
Example parse_512m :
  parse_memory_size "512m" 0 =
  {| status := arg_in_range; long_arg := Some (512 * 1024 * 1024) |}.
Proof. reflexivity. Qed.

Example parse_0g_min_1 : status (parse_memory_size "0g" 1) = arg_too_small.
Proof. reflexivity. Qed.

Example parse_overflow : status (parse_memory_size "99999999999999g" 0) = arg_too_big.
Proof. reflexivity. Qed.

Example parse_abc : status (parse_memory_size "abc" 0) = arg_unreadable.
Proof. reflexivity. Qed.

Lemma digit_value_range c : isdigit c = true -> 0 <= digit_value c <= 9.
Proof.
  unfold isdigit, digit_value. intros H.
  apply andb_true_iff in H as [H1 H2].
  apply Z.leb_le in H1, H2. lia.
Qed.

Lemma horner_nonneg ds : forall acc,
  all_digits ds = true -> 0 <= acc -> 0 <= horner ds acc.
Proof.
  induction ds as [|c ds IH]; intros acc Hd Hacc; simpl in *; [exact Hacc|].
  apply andb_true_iff in Hd as [Hc Hd].
  apply IH; [exact Hd|]. pose proof (digit_value_range c Hc). lia.
Qed.

Lemma numeral_value_nonneg ds : all_digits ds = true -> 0 <= numeral_value ds.
Proof. intros H. apply horner_nonneg; [exact H | lia]. Qed.

Lemma scan_digits_app ds : forall rest acc,
  all_digits ds = true -> stops rest ->
  scan_digits (ds ++ rest) acc = (horner ds acc, rest).
Proof.
  induction ds as [|c ds IH]; intros rest acc Hd Hs; simpl in *.
  - destruct rest as [|c r]; simpl in *; [reflexivity|]. rewrite Hs. reflexivity.
  - apply andb_true_iff in Hd as [Hc Hd]. rewrite Hc. apply IH; assumption.
Qed.

Lemma scan_digits_inv s : forall acc n rest,
  scan_digits s acc = (n, rest) ->
  exists ds, s = (ds ++ rest)%string /\ all_digits ds = true /\
             n = horner ds acc /\ stops rest.
Proof.
  induction s as [|c s IH]; intros acc n rest H; simpl in H.
  - inversion H; subst. exists EmptyString. repeat split.
  - destruct (isdigit c) eqn:Hc.
    + destruct (IH _ _ _ H) as (ds & -> & Hd & -> & Hs).
      exists (String c ds). simpl. rewrite Hc, Hd. repeat split. exact Hs.
    + inversion H; subst. exists EmptyString. simpl. repeat split. exact Hc.
Qed.

Lemma unit_suffix_pos suffix unit : unit_suffix suffix unit -> 0 < unit.
Proof. destruct 1; lia. Qed.

Lemma unit_suffix_stops suffix unit : unit_suffix suffix unit -> stops suffix.
Proof. destruct 1; simpl; auto. Qed.

Lemma unit_multiplier_sound u unit :
  unit_multiplier u = Some unit -> unit_suffix (String u EmptyString) unit.
Proof.
  unfold unit_multiplier. intros H.
  repeat match type of H with
  | context [Ascii.eqb u ?c] =>
      destruct (Ascii.eqb_spec u c); [subst u; simpl in H; inversion H; constructor|]
  end.
  simpl in H. discriminate.
Qed.

Lemma unit_multiplier_complete u unit :
  unit_suffix (String u EmptyString) unit -> unit_multiplier u = Some unit.
Proof. intros H. inversion H; subst; reflexivity. Qed.

Lemma scale_spec n unit :
  0 < unit ->
  scale n unit = if max_julong <? n * unit then None else Some (n * unit).
Proof.
  intros Hu. unfold scale.
  destruct (Z.ltb_spec (max_julong / unit) n) as [H|H];
    destruct (Z.ltb_spec max_julong (n * unit)) as [H'|H']; try reflexivity; exfalso.
  - assert (n <= max_julong / unit) by (apply Z.div_le_lower_bound; lia). lia.
  - assert (max_julong / unit < n) by (apply Z.div_lt_upper_bound; lia). lia.
Qed.

(** How a well-formed literal is read. *)
Lemma parse_literal ds suffix unit min_size :
  ds <> EmptyString -> all_digits ds = true -> unit_suffix suffix unit ->
  parse_memory_size (ds ++ suffix) min_size =
  let size := numeral_value ds * unit in
  if max_julong <? size then {| status := arg_too_big; long_arg := None |}
  else {| status := check_memory_size size min_size; long_arg := Some size |}.
Proof.
  intros Hne Hd Hu.
  pose proof (scan_digits_app ds suffix 0 Hd (unit_suffix_stops _ _ Hu)) as Hscan.
  pose proof (scale_spec (numeral_value ds) unit (unit_suffix_pos _ _ Hu)) as Hscale.
  destruct ds as [|c ds]; [congruence|].
  unfold parse_memory_size.
  change ((String c ds ++ suffix)%string) with (String c (ds ++ suffix)%string) in *.
  assert (Hc : isdigit c = true) by (simpl in Hd; apply andb_true_iff in Hd; tauto).
  cbv beta iota zeta. rewrite Hc, Hscan. fold (numeral_value (String c ds)).
  destruct Hu;
    try (erewrite unit_multiplier_complete by constructor);
    cbv beta iota; rewrite Hscale; destruct (_ <? _); reflexivity.
Qed.

Lemma parse_not_literal s min_size :
  ~ memory_size_literal s ->
  parse_memory_size s min_size = {| status := arg_unreadable; long_arg := None |}.
Proof.
  intros Hnot. unfold parse_memory_size.
  destruct s as [|c s]; [reflexivity|].
  destruct (isdigit c) eqn:Hc; [|reflexivity].
  destruct (scan_digits (String c s) 0) as [n rest] eqn:Hscan.
  destruct (scan_digits_inv _ _ _ _ Hscan) as (ds & Hs & Hd & _ & Hstop).
  assert (Hne : ds <> EmptyString).
  { intros ->. change (String c s = rest) in Hs. subst rest.
    simpl in Hstop. congruence. }
  destruct rest as [|u [|u' rest]]; [| |reflexivity].
  - exfalso. apply Hnot. exists ds, EmptyString, 1. repeat split; try assumption. constructor.
  - destruct (unit_multiplier u) as [unit|] eqn:Hu; [|reflexivity].
    exfalso. apply Hnot. exists ds, (String u EmptyString), unit.
    repeat split; try assumption. apply unit_multiplier_sound, Hu.
Qed.

(** C1: a literal made of a decimal numeral [N] and an optional unit k/K,
    m/M, g/G is read as [N] times the unit (1, 1024, 1024^2, 1024^3): the
    status is [arg_too_big] when the product leaves the 64-bit range,
    [arg_too_small] when it is below [min_size], and [arg_in_range] with the
    product as value otherwise; every other input (the empty string, a
    suffix without digits, a malformed numeral) is [arg_unreadable]. *)
Theorem parse_memory_size_spec :
  forall (s : string) (min_size : Z),
    (forall ds suffix unit,
        ds <> EmptyString -> all_digits ds = true -> unit_suffix suffix unit ->
        s = (ds ++ suffix)%string ->
        let size := numeral_value ds * unit in
        (min_size <= size -> size <= max_julong ->
           parse_memory_size s min_size =
           {| status := arg_in_range; long_arg := Some size |}) /\
        (size < min_size -> size <= max_julong ->
           status (parse_memory_size s min_size) = arg_too_small) /\
        (max_julong < size ->
           status (parse_memory_size s min_size) = arg_too_big)) /\
    (~ memory_size_literal s ->
       status (parse_memory_size s min_size) = arg_unreadable).
Proof.
  intros s min_size. split.
  - intros ds suffix unit Hne Hd Hu -> size.
    rewrite (parse_literal ds suffix unit min_size Hne Hd Hu). fold size.
    unfold check_memory_size.
    repeat split; intros;
      destruct (Z.ltb_spec max_julong size); destruct (Z.ltb_spec size min_size);
      simpl; try reflexivity; lia.
  - intros H. rewrite (parse_not_literal s min_size H). reflexivity.
Qed.

Lemma parse_memory_size_spec_witness :
  parse_memory_size "512m" 1024 =
  {| status := arg_in_range; long_arg := Some (512 * (1024 * 1024)) |}.
Proof.
  refine (proj1 (proj1 (parse_memory_size_spec "512m" 1024)
                   "512"%string "m"%string (1024 * 1024) _ _ _ _) _ _).
  - discriminate.
  - reflexivity.
  - constructor.
  - reflexivity.
  - vm_compute. discriminate.
  - vm_compute. discriminate.
Defined.

End MemorySizeFacts.

Module AgentsFacts.
Import Agents.

Section chains.
Implicit Types (h : gmap positive AgentLibrary) (p q : option positive).
Implicit Types (xs ys : list positive) (l : AgentLibraryList).

Lemma seg_app h xs : forall p ys q,
  seg h p (xs ++ ys) q <-> exists m, seg h p xs m /\ seg h m ys q.
Proof.
  induction xs as [|x xs IH]; intros p ys q; simpl.
  - split; [intros H; exists p; auto | intros (m & -> & H); exact H].
  - split.
    + intros (-> & n & Hn & H). apply IH in H as (m & H1 & H2).
      exists m. split; [|exact H2]. split; [reflexivity|]. exists n. auto.
    + intros (m & (-> & n & Hn & H1) & H2). split; [reflexivity|].
      exists n. split; [exact Hn|]. apply IH. exists m. auto.
Qed.

(** A chain only depends on the objects it visits. *)
Lemma seg_frame h h' xs : forall p q,
  (forall x, x ∈ xs -> h' !! x = h !! x) -> seg h p xs q -> seg h' p xs q.
Proof.
  induction xs as [|x xs IH]; intros p q Hsame; simpl; [auto|].
  intros (-> & n & Hn & H). split; [reflexivity|]. exists n. split.
  - rewrite Hsame; [exact Hn | left].
  - apply IH; [|exact H]. intros y Hy. apply Hsame. right. exact Hy.
Qed.

Lemma seg_lookup h xs : forall p q x,
  seg h p xs q -> x ∈ xs -> is_Some (h !! x).
Proof.
  induction xs as [|y xs IH]; intros p q x; simpl.
  - intros _ H. inversion H.
  - intros (-> & n & Hn & H) Hx. apply elem_of_cons in Hx as [->|Hx]; eauto.
Qed.

Lemma seg_functional h xs : forall p ys,
  seg h p xs None -> seg h p ys None -> xs = ys.
Proof.
  induction xs as [|x xs IH]; intros p [|y ys]; simpl; try reflexivity.
  - intros -> [? _]. discriminate.
  - intros [-> _] ?. discriminate.
  - intros (-> & n & Hn & H) (Heq & n' & Hn' & H'). simplify_eq.
    f_equal. eapply IH; eauto.
Qed.

(** A chain that reaches NULL visits no object twice. *)
Lemma seg_NoDup h xs : forall p, seg h p xs None -> NoDup xs.
Proof.
  induction xs as [|x xs IH]; intros p H; [constructor|].
  pose proof H as (-> & n & Hn & Hrest). constructor; [|eapply IH; eauto].
  intros Hin. apply list_elem_of_split in Hin as (l1 & l2 & ->).
  apply seg_app in Hrest as (m & _ & Hx).
  pose proof Hx as (-> & _).
  pose proof (seg_functional _ _ _ _ H Hx) as Heq.
  apply (f_equal length) in Heq. simpl in Heq. rewrite length_app in Heq.
  simpl in Heq. lia.
Qed.

Lemma seg_length h xs p : seg h p xs None -> length xs <= size h.
Proof.
  intros H. rewrite <- size_dom. unfold size, set_size. simpl.
  apply submseteq_length, NoDup_submseteq; [eapply seg_NoDup; eauto|].
  intros x Hx. apply elem_of_elements, elem_of_dom. eapply seg_lookup; eauto.
Qed.

(** The field [_next] is the only one an update of a link touches. *)
Lemma descriptor_set_next q (n : AgentLibrary) : descriptor (set_next q n) = descriptor n.
Proof. reflexivity. Qed.

Lemma descriptors_insert h a q n :
  h !! a = Some n -> descriptor <$> <[a := set_next q n]> h = descriptor <$> h.
Proof.
  intros H. rewrite fmap_insert, descriptor_set_next.
  apply insert_id. rewrite lookup_fmap, H. reflexivity.
Qed.

Lemma descriptors_lookup h h' a n :
  descriptor <$> h' = descriptor <$> h -> h !! a = Some n ->
  exists n', h' !! a = Some n' /\ descriptor n' = descriptor n.
Proof.
  intros Heq Hn. apply (f_equal (fun m => m !! a)) in Heq.
  rewrite !lookup_fmap, Hn in Heq. simpl in Heq.
  apply fmap_Some in Heq as (n' & Hn' & Hd). eauto.
Qed.

(** *** The loop of [remove] *)

Lemma prev_after_cons x xs prev : prev_after (x :: xs) prev = prev_after xs (Some x).
Proof.
  unfold prev_after. destruct xs as [|y ys]; [reflexivity|].
  rewrite last_cons. destruct (last (y :: ys)) eqn:E; [reflexivity|].
  apply last_None in E. discriminate.
Qed.

(** Scanning skips a stretch of objects that are not the one looked for. *)
Lemma remove_scan_skip h lib xs : forall fuel p q prev,
  seg h p xs q -> (forall x, x ∈ xs -> Some x <> lib) -> length xs <= fuel ->
  remove_scan fuel h lib p prev =
  remove_scan (fuel - length xs) h lib q (prev_after xs prev).
Proof.
  induction xs as [|x xs IH]; intros fuel p q prev Hseg Hne Hfuel; simpl in *.
  - subst q. rewrite Nat.sub_0_r. reflexivity.
  - destruct Hseg as (-> & n & Hn & Hseg).
    destruct fuel as [|fuel]; [lia|]. simpl.
    rewrite bool_decide_eq_false_2 by (apply Hne; left).
    rewrite Hn. simpl. unfold next.
    rewrite (IH fuel (_next n) q (Some x)); [| exact Hseg | | lia].
    + rewrite prev_after_cons. reflexivity.
    + intros y Hy. apply Hne. right. exact Hy.
Qed.

Lemma remove_scan_found fuel h x prev :
  remove_scan fuel h (Some x) (Some x) prev = Done (Some x, prev).
Proof. destruct fuel; simpl; rewrite bool_decide_eq_true_2; reflexivity. Qed.

Lemma remove_scan_end fuel h lib prev :
  remove_scan fuel h lib None prev = Done (None, prev).
Proof. destruct fuel; reflexivity. Qed.

(** The scan of a well-formed list ends: with [curr] at the object looked
    for if the list holds it, with [curr] NULL if it does not. *)
Lemma remove_scan_present h l xs1 x xs2 :
  is_list h l (xs1 ++ x :: xs2) ->
  remove_scan (S (size h)) h (Some x) (first l) None = Done (Some x, last xs1).
Proof.
  intros [Hseg _]. pose proof (seg_NoDup _ _ _ Hseg) as Hnd.
  pose proof (seg_length _ _ _ Hseg) as Hlen. rewrite length_app in Hlen.
  apply seg_app in Hseg as (m & H1 & H2). pose proof H2 as (-> & _).
  unfold first.
  rewrite (remove_scan_skip h (Some x) xs1 (S (size h)) _ (Some x) None H1).
  - rewrite remove_scan_found. unfold prev_after. destruct (last xs1); reflexivity.
  - intros y Hy [= ->]. apply NoDup_app in Hnd as (_ & Hnd & _).
    apply (Hnd x Hy). left.
  - lia.
Qed.

Lemma remove_scan_absent h l lib xs :
  is_list h l xs -> (forall x, x ∈ xs -> Some x <> lib) ->
  exists prev, remove_scan (S (size h)) h lib (first l) None = Done (None, prev).
Proof.
  intros [Hseg _] Hne. pose proof (seg_length _ _ _ Hseg) as Hlen.
  unfold first.
  rewrite (remove_scan_skip h lib xs (S (size h)) _ None None Hseg Hne); [|lia].
  rewrite remove_scan_end. eauto.
Qed.

(** *** Running out of fuel means a cycle *)

(** A scan that runs out of fuel has passed as many objects as it had fuel,
    none of them the one looked for, and stands in front of another one. *)
Lemma remove_scan_out_of_fuel h lib fuel : forall p prev,
  remove_scan fuel h lib p prev = Diverges ->
  exists xs q, length xs = fuel /\ seg h p xs q /\
               (forall x, x ∈ xs -> Some x <> lib) /\ q <> None /\ q <> lib.
Proof.
  induction fuel as [|fuel IH]; intros p prev H; simpl in H.
  - destruct p as [c|]; [|discriminate].
    case_bool_decide as Hlib; [discriminate|].
    exists [], (Some c). repeat split; auto. intros x Hx. inversion Hx.
  - destruct p as [c|]; [|discriminate].
    case_bool_decide as Hlib; [discriminate|].
    simpl in H. destruct (h !! c) as [n|] eqn:Hn; [|discriminate]. simpl in H.
    destruct (IH _ _ H) as (xs & q & Hlen & Hseg & Hne & Hq1 & Hq2).
    exists (c :: xs), q. simpl. repeat split; auto.
    + eauto.
    + intros x Hx. apply elem_of_cons in Hx as [->|Hx]; auto.
Qed.

Lemma remove_scan_short_of_fuel h lib xs : forall fuel p q prev,
  seg h p xs q -> (forall x, x ∈ xs -> Some x <> lib) -> fuel < length xs ->
  remove_scan fuel h lib p prev = Diverges.
Proof.
  induction xs as [|x xs IH]; intros fuel p q prev Hseg Hne Hfuel; simpl in *; [lia|].
  destruct Hseg as (-> & n & Hn & Hseg).
  destruct fuel as [|fuel]; simpl;
    rewrite bool_decide_eq_false_2 by (apply Hne; left); [reflexivity|].
  rewrite Hn. simpl. eapply IH; [exact Hseg | | lia].
  intros y Hy. apply Hne. right. exact Hy.
Qed.

(** Going round a cycle that does not hold the object looked for. *)
Lemma remove_scan_cycle h lib a xs :
  seg h (Some a) (a :: xs) (Some a) -> (forall x, x ∈ a :: xs -> Some x <> lib) ->
  forall fuel prev, remove_scan fuel h lib (Some a) prev = Diverges.
Proof.
  intros Hseg Hne fuel. induction fuel as [fuel IH] using lt_wf_ind. intros prev.
  destruct (decide (fuel < length (a :: xs))) as [Hlt|Hge].
  - eapply remove_scan_short_of_fuel; eauto.
  - rewrite (remove_scan_skip h lib (a :: xs) fuel _ _ prev Hseg Hne) by lia.
    apply IH. simpl in *. lia.
Qed.

Lemma duplicate_split xs :
  ~ NoDup xs -> exists x ys1 ys2 ys3, xs = ys1 ++ x :: ys2 ++ x :: ys3.
Proof.
  induction xs as [|x xs IH]; intros Hdup; [destruct Hdup; constructor|].
  destruct (decide (x ∈ xs)) as [Hin|Hout].
  - apply list_elem_of_split in Hin as (ys2 & ys3 & ->). exists x, [], ys2, ys3. reflexivity.
  - destruct IH as (y & ys1 & ys2 & ys3 & ->).
    + intros Hnd. apply Hdup. constructor; assumption.
    + exists y, (x :: ys1), ys2, ys3. reflexivity.
Qed.

(** The outcome [Diverges] of [remove] is a scan that never ends: with the
    fuel [remove] gives it, a scan that runs out of fuel has met an object
    twice, and then no amount of fuel lets it end. *)
Lemma remove_scan_diverges h lib p prev :
  remove_scan (S (size h)) h lib p prev = Diverges ->
  forall fuel prev', remove_scan fuel h lib p prev' = Diverges.
Proof.
  intros H fuel prev'.
  destruct (remove_scan_out_of_fuel _ _ _ _ _ H) as (xs & q & Hlen & Hseg & Hne & _).
  assert (Hdup : ~ NoDup xs).
  { intros Hnd. assert (length xs <= size h); [|lia].
    rewrite <- size_dom. unfold size, set_size. simpl.
    apply submseteq_length, NoDup_submseteq; [exact Hnd|].
    intros x Hx. apply elem_of_elements, elem_of_dom. eapply seg_lookup; eauto. }
  destruct (duplicate_split xs Hdup) as (a & ys1 & ys2 & ys3 & ->).
  apply seg_app in Hseg as (m & Hl1 & Hrest).
  change (a :: ys2 ++ a :: ys3) with ((a :: ys2) ++ a :: ys3) in Hrest.
  apply seg_app in Hrest as (m' & Hcycle & Htail).
  pose proof Hcycle as (-> & _). pose proof Htail as (-> & _).
  assert (Hne1 : forall x, x ∈ ys1 -> Some x <> lib).
  { intros x Hx. apply Hne. apply elem_of_app. left. exact Hx. }
  assert (Hne2 : forall x, x ∈ a :: ys2 -> Some x <> lib).
  { intros x Hx. apply Hne. apply elem_of_app. right.
    change (a :: ys2 ++ a :: ys3) with ((a :: ys2) ++ a :: ys3).
    apply elem_of_app. left. exact Hx. }
  destruct (decide (fuel < length ys1)) as [Hlt|Hge].
  - eapply remove_scan_short_of_fuel; eauto.
  - rewrite (remove_scan_skip h lib ys1 fuel _ _ prev' Hl1 Hne1) by lia.
    apply (remove_scan_cycle h lib a ys2 Hcycle Hne2).
Qed.

Lemma last_snoc_cons (ys : list positive) (y : positive) x zs :
  last ((ys ++ [y]) ++ x :: zs) = last (x :: zs).
Proof. rewrite last_app. destruct (last (x :: zs)) eqn:E; [reflexivity|].
  apply last_None in E. discriminate. Qed.

Lemma remove_present h l xs1 x xs2 :
  is_list h l (xs1 ++ x :: xs2) ->
  exists l' h',
    remove (Some x) l h = Done (l', h') /\
    is_list h' l' (xs1 ++ xs2) /\
    (exists n, h' !! x = Some n /\ _next n = None) /\
    (forall a, a ∉ xs1 ++ x :: xs2 -> h' !! a = h !! a) /\
    descriptor <$> h' = descriptor <$> h.
Proof.
  intros Hl. pose proof Hl as [Hseg Hlast].
  pose proof (seg_NoDup _ _ _ Hseg) as Hnd.
  unfold remove. rewrite (remove_scan_present h l xs1 x xs2 Hl).
  apply seg_app in Hseg as (m & H1 & (-> & n & Hn & H2)).
  assert (Hx2 : x ∉ xs2).
  { apply NoDup_app in Hnd as (_ & _ & Hnd). apply NoDup_cons in Hnd. tauto. }
  assert (Hx1 : x ∉ xs1).
  { intros Hin. apply NoDup_app in Hnd as (_ & Hnd & _). apply (Hnd x Hin). left. }
  assert (Hlastx : bool_decide (Some x = last (x :: xs2)) = bool_decide (xs2 = [])).
  { apply bool_decide_ext. split.
    - intros E. destruct xs2 as [|y ys]; [reflexivity|]. exfalso. apply Hx2.
      rewrite last_cons_cons in E. symmetry in E.
      apply last_Some_elem_of in E. exact E.
    - intros ->. reflexivity. }
  simpl. rewrite Hn. simpl.
  destruct xs1 as [|p ys _] using rev_ind.
  - (* the object looked for is the head of the list *)
    simpl. rewrite Hn. simpl in *.
    rewrite Hlast, Hlastx. clear Hlastx.
    assert (Hframe : seg (<[x:=set_next None n]> h) (_next n) xs2 None).
    { eapply seg_frame; [|exact H2].
      intros y Hy; apply lookup_insert_ne; intros ->; contradiction. }
    eexists _, _. split; [reflexivity|]. split; [|split; [|split]].
    + destruct (decide (xs2 = [])) as [E|E];
        [rewrite (bool_decide_eq_true_2 _ E) | rewrite (bool_decide_eq_false_2 _ E)];
        (split; [exact Hframe|]); simpl.
      * subst xs2. reflexivity.
      * destruct xs2 as [|y ys]; [contradiction|]. apply last_cons_cons.
    + eexists. rewrite lookup_insert_eq. split; reflexivity.
    + intros a Ha. apply lookup_insert_ne. intros <-. apply Ha. left.
    + apply descriptors_insert, Hn.
  - (* it has a predecessor [p] *)
    rewrite last_snoc. rewrite bool_decide_eq_false_2 by discriminate.
    apply seg_app in H1 as (m & Hys & (-> & np & Hnp & Hm)). simpl in Hm.
    assert (Hpx : p <> x).
    { intros ->. apply Hx1. apply elem_of_app. right. left. }
    assert (Hpys : p ∉ ys).
    { apply NoDup_app in Hnd as (Hnd & _). apply NoDup_app in Hnd as (_ & Hnd & _).
      intros Hin. apply (Hnd p Hin). left. }
    assert (Hpxs2 : p ∉ xs2).
    { apply NoDup_app in Hnd as (_ & Hnd & _). intros Hin.
      apply (Hnd p); [apply elem_of_app; right; left | right; exact Hin]. }
    simpl. rewrite Hnp. simpl.
    rewrite lookup_insert_ne by exact Hpx. rewrite Hn. simpl.
    rewrite Hlast, last_snoc_cons, Hlastx. clear Hlastx.
    assert (Hframe : seg (<[x:=set_next None n]> (<[p:=set_next (_next n) np]> h))
                       (_first l) ((ys ++ [p]) ++ xs2) None).
    { rewrite <- app_assoc. apply seg_app. exists (Some p). split.
      - eapply seg_frame; [|exact Hys]. intros y Hy.
        rewrite !lookup_insert_ne; [reflexivity| |].
        + intros ->. contradiction.
        + intros ->. apply Hx1. apply elem_of_app. left. exact Hy.
      - simpl. split; [reflexivity|]. eexists. split.
        + rewrite lookup_insert_ne by congruence. apply lookup_insert_eq.
        + simpl. eapply seg_frame; [|exact H2]. intros y Hy.
          rewrite !lookup_insert_ne; [reflexivity| |]; intros ->; contradiction. }
    eexists _, _. split; [reflexivity|]. split; [|split; [|split]].
    + destruct (decide (xs2 = [])) as [E|E];
        [rewrite (bool_decide_eq_true_2 _ E) | rewrite (bool_decide_eq_false_2 _ E)];
        (split; [exact Hframe|]); simpl.
      * subst xs2. rewrite app_nil_r, last_snoc. reflexivity.
      * rewrite Hlast, last_snoc_cons. destruct xs2 as [|y zs]; [contradiction|].
        rewrite last_cons_cons. rewrite last_app.
        destruct (last (y :: zs)) eqn:E'; [reflexivity|].
        apply last_None in E'. discriminate.
    + eexists. rewrite lookup_insert_eq. split; reflexivity.
    + intros a Ha. rewrite !lookup_insert_ne; [reflexivity| |].
      * intros <-. apply Ha. apply elem_of_app. left. apply elem_of_app. right. left.
      * intros <-. apply Ha. apply elem_of_app. right. left.
    + rewrite descriptors_insert by (rewrite lookup_insert_ne by exact Hpx; exact Hn).
      apply descriptors_insert, Hnp.
Qed.

Lemma remove_absent h l lib xs :
  is_list h l xs -> (forall x, x ∈ xs -> Some x <> lib) ->
  remove lib l h = Fatal "always should be found".
Proof.
  intros Hl Hne. unfold remove.
  destruct (remove_scan_absent h l lib xs Hl Hne) as [prev ->]. reflexivity.
Qed.

Lemma add_spec h l xs x n :
  is_list h l xs -> h !! x = Some n -> x ∉ xs ->
  exists l' h',
    add (Some x) l h = Done (l', h') /\
    is_list h' l' (xs ++ [x]) /\
    (forall a, a <> x -> Some a <> last xs -> h' !! a = h !! a) /\
    descriptor <$> h' = descriptor <$> h.
Proof.
  intros [Hseg Hlast] Hn Hx. unfold add, is_empty.
  destruct xs as [|z ys _] using rev_ind.
  - simpl in Hseg. rewrite Hseg, bool_decide_eq_true_2 by reflexivity.
    simpl. rewrite Hn. simpl.
    eexists _, _. split; [reflexivity|]. split; [|split].
    + split; simpl; [|reflexivity]. split; [reflexivity|].
      eexists. rewrite lookup_insert_eq. split; reflexivity.
    + intros a Ha _. apply lookup_insert_ne. congruence.
    + apply descriptors_insert, Hn.
  - assert (Hzx : z <> x).
    { intros ->. apply Hx. apply elem_of_app. right. left. }
    rewrite last_snoc in Hlast.
    pose proof (seg_NoDup _ _ _ Hseg) as Hnd.
    apply seg_app in Hseg as (m & Hys & (-> & nz & Hnz & Hend)). simpl in Hend.
    rewrite bool_decide_eq_false_2.
    2:{ destruct ys; simpl in Hys; [rewrite Hys | rewrite (proj1 Hys)]; discriminate. }
    rewrite Hlast. simpl. rewrite Hnz. simpl.
    rewrite lookup_insert_ne by exact Hzx. rewrite Hn. simpl.
    eexists _, _. split; [reflexivity|]. split; [|split].
    + split; simpl; [|rewrite last_snoc; reflexivity].
      rewrite <- app_assoc. apply seg_app. exists (Some z). split.
      * eapply seg_frame; [|exact Hys]. intros y Hy.
        rewrite !lookup_insert_ne; [reflexivity| |].
        -- intros E. subst y. apply NoDup_app in Hnd as (_ & Hnd & _). apply (Hnd z Hy). left.
        -- intros E. subst y. apply Hx. apply elem_of_app. left. exact Hy.
      * simpl. split; [reflexivity|]. eexists. split.
        -- rewrite lookup_insert_ne by congruence. apply lookup_insert_eq.
        -- simpl. split; [reflexivity|]. eexists.
           rewrite lookup_insert_eq. split; reflexivity.
    + intros a Hax Haz. rewrite last_snoc in Haz.
      rewrite !lookup_insert_ne; congruence.
    + rewrite descriptors_insert by (rewrite lookup_insert_ne by exact Hzx; exact Hn).
      apply descriptors_insert, Hnz.
Qed.

Lemma filter_ne_absent (x : positive) xs :
  x ∉ xs -> filter (fun a => a <> x) xs = xs.
Proof.
  induction xs as [|y ys IH]; intros H; [reflexivity|].
  apply not_elem_of_cons in H as [Hne Hin].
  rewrite filter_cons_True by congruence. rewrite IH by exact Hin. reflexivity.
Qed.

Lemma filter_ne_split (x : positive) xs1 xs2 :
  NoDup (xs1 ++ x :: xs2) ->
  filter (fun a => a <> x) (xs1 ++ x :: xs2) = xs1 ++ xs2.
Proof.
  intros Hnd. apply NoDup_app in Hnd as (_ & H1 & H2). apply NoDup_cons in H2 as [H2 _].
  rewrite filter_app, filter_cons_False by (intros H; apply H; reflexivity).
  rewrite !filter_ne_absent; [reflexivity | exact H2 |].
  intros Hin. apply (H1 x Hin). left.
Qed.

Lemma occurrences_snoc (x : positive) xs :
  x ∉ xs -> occurrences x (xs ++ [x]) = 1.
Proof.
  intros H. unfold occurrences. rewrite filter_app, length_app.
  rewrite filter_cons_True by reflexivity. simpl.
  induction xs as [|y ys IH]; [reflexivity|].
  apply not_elem_of_cons in H as [Hne Hin].
  rewrite filter_cons_False by congruence. apply IH, Hin.
Qed.

Lemma occurrences_absent (x : positive) xs : x ∉ xs <-> occurrences x xs = 0.
Proof.
  unfold occurrences. induction xs as [|y ys IH]; simpl.
  - split; [reflexivity | intros _ H; inversion H].
  - destruct (decide (x = y)) as [->|Hne].
    + rewrite filter_cons_True by reflexivity. simpl. split; [|lia].
      intros H. exfalso. apply H. left.
    + rewrite filter_cons_False by congruence. rewrite <- IH.
      rewrite not_elem_of_cons. tauto.
Qed.

(** Walking a well-formed list visits its objects in order. *)
Lemma walk_seg h xs : forall fuel p,
  seg h p xs None -> length xs <= fuel -> walk fuel h p = xs.
Proof.
  induction xs as [|x xs IH]; intros fuel p; simpl.
  - intros -> _. destruct fuel; reflexivity.
  - intros (-> & n & Hn & Hseg) Hfuel. destruct fuel as [|fuel]; [lia|].
    simpl. rewrite Hn. f_equal. apply IH; [exact Hseg | lia].
Qed.

Lemma is_list_frame h h' l xs :
  (forall x, x ∈ xs -> h' !! x = h !! x) -> is_list h l xs -> is_list h' l xs.
Proof. intros Hsame [Hseg Hlast]. split; [eapply seg_frame; eauto | exact Hlast]. Qed.

End chains.

Example sample_built :
  (st ← add_init_library "jdwp" (Some "transport=dt_socket"%string) initial;
   st ← add_init_library "hprof" None st;
   add_init_agent "instrument" (Some "agent.jar"%string) true st) = Done sample.
Proof. vm_compute. reflexivity. Qed.

Lemma sample_libraries : is_list (heap sample) (_libraryList sample) [1; 2]%positive.
Proof.
  split; [|reflexivity]. simpl.
  split; [reflexivity|]. eexists. split; [reflexivity|]. simpl.
  split; [reflexivity|]. eexists. split; [reflexivity|]. reflexivity.
Defined.

Lemma sample_agents : is_list (heap sample) (_agentList sample) [3]%positive.
Proof.
  split; [|reflexivity]. simpl.
  split; [reflexivity|]. eexists. split; [reflexivity|]. reflexivity.
Defined.

(** C4: when [lib] is one of the objects of the library list (and, as the
    data model requires, no object is in both lists), the call
    [convert_library_to_agent(lib)] returns; afterwards the agent list is the
    old agent list followed by [lib], so [lib] occurs in it exactly once and
    at its tail; the library list is the old one without [lib], which no
    longer occurs in it; the order of all other objects is kept; and [lib],
    like every object of the store, carries the same name, options,
    absolute-path flag, static-lib flag, validity state and [os_lib] handle
    as before. *)
Theorem convert_library_to_agent_moves :
  forall (st : statics) (lib : positive) (libs ags : list positive),
    is_list (heap st) (_libraryList st) libs ->
    is_list (heap st) (_agentList st) ags ->
    lib ∈ libs ->
    (forall a, a ∈ libs -> a ∉ ags) ->
    exists st',
      convert_library_to_agent (Some lib) st = Done st' /\
      is_list (heap st') (_agentList st') (ags ++ [lib]) /\
      is_list (heap st') (_libraryList st') (filter (fun a => a <> lib) libs) /\
      occurrences lib (ags ++ [lib]) = 1 /\
      occurrences lib (filter (fun a => a <> lib) libs) = 0 /\
      (forall n, heap st !! lib = Some n ->
         exists n', heap st' !! lib = Some n' /\ descriptor n' = descriptor n) /\
      descriptor <$> heap st' = descriptor <$> heap st.
Proof.
  intros st lib libs ags Hlibs Hags Hin Hdisj.
  assert (Hlibags : lib ∉ ags) by (apply Hdisj, Hin).
  apply list_elem_of_split in Hin as (xs1 & xs2 & ->).
  pose proof (seg_NoDup _ _ _ (proj1 Hlibs)) as Hnd.
  destruct (remove_present _ _ _ _ _ Hlibs)
    as (ll & h1 & Hrem & Hll & (n & Hn & _) & Hframe1 & Hdesc1).
  assert (Hags1 : is_list h1 (_agentList st) ags).
  { eapply is_list_frame; [|exact Hags]. intros a Ha. apply Hframe1.
    intros Ha'. exact (Hdisj a Ha' Ha). }
  destruct (add_spec _ _ _ _ _ Hags1 Hn Hlibags)
    as (al & h2 & Hadd & Hal & Hframe2 & Hdesc2).
  exists {| heap := h2; _libraryList := ll; _agentList := al |}.
  rewrite (filter_ne_split lib xs1 xs2 Hnd).
  assert (Hnot : lib ∉ xs1 ++ xs2).
  { apply NoDup_app in Hnd as (_ & H1 & H2). apply NoDup_cons in H2 as [H2 _].
    intros H. apply elem_of_app in H as [H|H]; [|contradiction].
    apply (H1 lib H). left. }
  assert (Hdesc : descriptor <$> h2 = descriptor <$> heap st)
    by (rewrite Hdesc2; exact Hdesc1).
  split; [|split; [|split; [|split; [|split; [|split]]]]]; simpl.
  - unfold convert_library_to_agent. rewrite Hrem. simpl. rewrite Hadd. reflexivity.
  - exact Hal.
  - eapply is_list_frame; [|exact Hll]. intros a Ha. apply Hframe2.
    + intros ->. contradiction.
    + intros Hlast. symmetry in Hlast. apply last_Some_elem_of in Hlast.
      apply (Hdisj a); [|exact Hlast].
      apply elem_of_app in Ha as [Ha|Ha]; apply elem_of_app; [left | right; right]; exact Ha.
  - apply occurrences_snoc, Hlibags.
  - apply occurrences_absent, Hnot.
  - intros n0 Hn0. eapply descriptors_lookup; eauto.
  - exact Hdesc.
Qed.

Lemma convert_library_to_agent_moves_witness :
  exists st',
    convert_library_to_agent (Some 1%positive) sample = Done st' /\
    is_list (heap st') (_agentList st') [3; 1]%positive /\
    is_list (heap st') (_libraryList st') [2]%positive.
Proof.
  destruct (convert_library_to_agent_moves sample 1%positive [1; 2]%positive [3]%positive
              sample_libraries sample_agents)
    as (st' & H1 & H2 & H3 & _).
  - left.
  - intros a Ha Ha'. apply list_elem_of_In in Ha, Ha'. simpl in Ha, Ha'.
    destruct Ha as [<-|[<-|[]]]; destruct Ha' as [E|[]]; discriminate E.
  - exists st'. split; [exact H1|]. split; [exact H2|]. exact H3.
Defined.

(** C5: on a well-formed library list, [remove] (and with it
    [convert_library_to_agent]) of a pointer that is not in the list stops
    with the failed assertion [always should be found]; of a pointer that is
    in the list, the loop is left with [curr] at that object, so the
    assertion holds, the not-found branch is not taken and the call
    returns. *)
Theorem remove_requires_presence :
  forall (st : statics) (lib : option positive) (libs : list positive),
    is_list (heap st) (_libraryList st) libs ->
    ((forall x, x ∈ libs -> Some x <> lib) ->
       remove lib (_libraryList st) (heap st) = Fatal "always should be found" /\
       convert_library_to_agent lib st = Fatal "always should be found") /\
    (forall x, lib = Some x -> x ∈ libs ->
       (exists prev,
          remove_scan (S (size (heap st))) (heap st) lib (first (_libraryList st)) None
          = Done (Some x, prev)) /\
       (exists r, remove lib (_libraryList st) (heap st) = Done r)).
Proof.
  intros st lib libs Hlibs. split.
  - intros Habs. pose proof (remove_absent _ _ _ _ Hlibs Habs) as Hrem.
    split; [exact Hrem|]. unfold convert_library_to_agent. rewrite Hrem. reflexivity.
  - intros x -> Hin. apply list_elem_of_split in Hin as (xs1 & xs2 & ->). split.
    + eexists. apply (remove_scan_present _ _ _ _ _ Hlibs).
    + destruct (remove_present _ _ _ _ _ Hlibs) as (l' & h' & Hrem & _).
      rewrite Hrem. eauto.
Qed.

Lemma remove_requires_presence_witness :
  convert_library_to_agent (Some 3%positive) sample = Fatal "always should be found" /\
  exists r, remove (Some 2%positive) (_libraryList sample) (heap sample) = Done r.
Proof.
  pose proof (remove_requires_presence sample (Some 3%positive) [1; 2]%positive
                sample_libraries) as [Habs _].
  pose proof (remove_requires_presence sample (Some 2%positive) [1; 2]%positive
                sample_libraries) as [_ Hpres].
  split.
  - apply Habs. intros x Hx E. apply list_elem_of_In in Hx. simpl in Hx.
    destruct Hx as [<-|[<-|[]]]; discriminate E.
  - apply (Hpres 2%positive eq_refl). right. left.
Defined.

End AgentsFacts.

Module PathsFacts.
Import Paths.

Lemma bind_Done {A B} (a : A) (k : A -> outcome B) : (Done a ≫= k) = k a.
Proof. reflexivity. Qed.

Lemma read_heap_inv h a s :
  read h (heap_ptr a) = Done s ->
  exists c, buffers h !! a = Some {| capacity := c; text := Some s |}.
Proof.
  unfold read. destruct (buffers h !! a) as [[c [t|]]|]; intros H; inversion H.
  subst. eauto.
Qed.

Lemma read_heap h a c s :
  buffers h !! a = Some {| capacity := c; text := Some s |} ->
  read h (heap_ptr a) = Done s.
Proof. unfold read. intros ->. reflexivity. Qed.

(** Reading is not affected by what happens to other buffers. *)
Lemma read_frame h h' p :
  (forall a, p = heap_ptr a -> buffers h' !! a = buffers h !! a) ->
  read h' p = read h p.
Proof.
  intros H. destruct p as [|a|s]; try reflexivity. simpl. rewrite (H a eq_refl).
  reflexivity.
Qed.

Lemma write_heap h a b s :
  buffers h !! a = Some b -> String.length s + 1 <= capacity b ->
  write (heap_ptr a) s h =
  Done {| buffers := <[a := {| capacity := capacity b; text := Some s |}]> (buffers h);
          available := available h |}.
Proof.
  intros Hb Hc. unfold write. rewrite Hb.
  destruct (Nat.leb_spec (String.length s + 1) (capacity b)); [reflexivity | lia].
Qed.

Lemma AllocateHeap_ok size h :
  size <= available h ->
  let a := fresh (dom (buffers h)) in
  buffers h !! a = None /\
  AllocateHeap size h =
  (heap_ptr a,
   {| buffers := <[a := {| capacity := size; text := None |}]> (buffers h);
      available := available h - size |}).
Proof.
  intros Hs a. split.
  - apply not_elem_of_dom. apply is_fresh.
  - unfold AllocateHeap. destruct (Nat.leb_spec size (available h)); [reflexivity | lia].
Qed.

Lemma AllocateHeap_fail size h :
  available h < size -> AllocateHeap size h = (NULL, h).
Proof.
  intros Hs. unfold AllocateHeap.
  destruct (Nat.leb_spec size (available h)); [lia | reflexivity].
Qed.

Lemma length_append (s t : string) :
  String.length (s ++ t) = String.length s + String.length t.
Proof. induction s as [|c s IH]; simpl; [reflexivity | rewrite IH; reflexivity]. Qed.

Lemma append_assoc (s t u : string) : ((s ++ t) ++ u = s ++ t ++ u)%string.
Proof.
  induction s as [|c s IH]; [reflexivity|].
  change (String c ((s ++ t) ++ u) = String c (s ++ t ++ u))%string.
  rewrite IH. reflexivity.
Qed.

Lemma strcpy_heap h a b src s :
  read h src = Done s -> src <> heap_ptr a ->
  buffers h !! a = Some b -> String.length s + 1 <= capacity b ->
  strcpy (heap_ptr a) src h =
  Done {| buffers := <[a := {| capacity := capacity b; text := Some s |}]> (buffers h);
          available := available h |}.
Proof.
  intros Hs Hne Hb Hc. unfold strcpy. rewrite Hs, bind_Done.
  rewrite bool_decide_eq_false_2 by congruence. apply write_heap; assumption.
Qed.

Lemma strcat_heap h a c d src s :
  buffers h !! a = Some {| capacity := c; text := Some d |} ->
  read h src = Done s -> src <> heap_ptr a ->
  String.length d + String.length s + 1 <= c ->
  strcat (heap_ptr a) src h =
  Done {| buffers := <[a := {| capacity := c; text := Some (d ++ s)%string |}]> (buffers h);
          available := available h |}.
Proof.
  intros Ha Hs Hne Hc. unfold strcat.
  rewrite (read_heap _ _ _ _ Ha), bind_Done, Hs, bind_Done.
  rewrite bool_decide_eq_false_2 by congruence.
  rewrite (write_heap h a _ _ Ha); [reflexivity|]. simpl.
  rewrite length_append. lia.
Qed.

(** A pointer that can be read does not point at a fresh address. *)
Lemma read_not_fresh h p s a :
  read h p = Done s -> buffers h !! a = None -> p <> heap_ptr a.
Proof.
  intros Hs Ha ->. apply read_heap_inv in Hs as [c Hc]. congruence.
Qed.

Section append.
Variable sep : string.

(** C8: when the path string holds the string [s] and the argument points at
    the string [p], [append_value] returns with the path string pointing at
    a buffer whose address was not in use before the call (so it differs
    from the old buffer), holding [s], the path separator and [p] in this
    order; the old buffer is no longer allocated, and no other buffer is
    touched.  The platform's separator is one character long and the
    allocation of [strlen(s) + strlen(p) + 2] bytes succeeds. *)
Theorem append_value_joins :
  forall (this : PathString) (h : cheap) (value : char_ptr)
         (a : positive) (s p : string),
    _value this = heap_ptr a ->
    read h (heap_ptr a) = Done s ->
    value <> NULL ->
    read h value = Done p ->
    String.length sep <= 1 ->
    String.length p + String.length s + 2 <= available h ->
    exists sp h',
      append_value sep value this h = Done ({| _value := heap_ptr sp |}, h') /\
      buffers h !! sp = None /\
      sp <> a /\
      read h' (heap_ptr sp) = Done (s ++ sep ++ p)%string /\
      buffers h' !! a = None /\
      (forall b, b <> a -> b <> sp -> buffers h' !! b = buffers h !! b).
Proof.
  intros this h value a s p Hthis Hs Hnull Hp Hsep Havail.
  destruct (read_heap_inv _ _ _ Hs) as [c Ha].
  destruct (AllocateHeap_ok (String.length p + String.length s + 2) h Havail)
    as [Hfresh Halloc].
  set (sp := fresh (dom (buffers h))) in *.
  assert (Hne : sp <> a) by (intros E; rewrite E in Hfresh; congruence).
  assert (Hvalue : value <> heap_ptr sp) by (eapply read_not_fresh; eauto).
  unfold append_value. rewrite Hthis.
  rewrite bool_decide_eq_true_2 by exact Hnull.
  rewrite bool_decide_eq_true_2 by discriminate.
  unfold strlen. rewrite Hp, Hs. simpl. rewrite Halloc. simpl.
  set (n := String.length p + String.length s + 2).
  erewrite strcpy_heap; cycle 1.
  { apply read_heap with (c := c). simpl. rewrite lookup_insert_ne by exact Hne. exact Ha. }
  { congruence. }
  { simpl. apply lookup_insert_eq. }
  { simpl. unfold n. lia. }
  simpl. rewrite insert_insert_eq.
  erewrite strcat_heap; cycle 1.
  { simpl. apply lookup_insert_eq. }
  { reflexivity. }
  { discriminate. }
  { unfold n. lia. }
  simpl. rewrite insert_insert_eq.
  erewrite strcat_heap; cycle 1.
  { simpl. apply lookup_insert_eq. }
  { rewrite <- Hp. apply read_frame. intros v ->. simpl.
    apply lookup_insert_ne. congruence. }
  { exact Hvalue. }
  { rewrite length_append. unfold n. lia. }
  simpl. rewrite insert_insert_eq.
  rewrite lookup_insert_ne by exact Hne. rewrite Ha. simpl.
  eexists sp, _. split; [reflexivity|]. simpl.
  split; [exact Hfresh|]. split; [exact Hne|]. split; [|split].
  - rewrite lookup_delete_ne by congruence. rewrite lookup_insert_eq.
    rewrite append_assoc. reflexivity.
  - apply lookup_delete_eq.
  - intros b Hba Hbsp. rewrite lookup_delete_ne by congruence.
    apply lookup_insert_ne. congruence.
Qed.
End append.

(** *** [set_value] and [set_writeable_value] *)

Lemma set_value_null value (h : cheap) s :
  read h value = Done s ->
  String.length s + 1 <= available h ->
  exists p h',
    set_value value {| _value := NULL |} h
    = Done (true, {| _value := heap_ptr p |}, h') /\
    read h' (heap_ptr p) = Done s.
Proof.
  intros Hs Havail.
  destruct (AllocateHeap_ok (String.length s + 1) h Havail) as [Hfresh Halloc].
  set (p := fresh (dom (buffers h))) in *.
  assert (Hvalue : value <> heap_ptr p) by (eapply read_not_fresh; eauto).
  unfold set_value. simpl _value.
  rewrite bool_decide_eq_false_2 by (intros H; apply H; reflexivity).
  rewrite bind_Done. unfold strlen. rewrite Hs, !bind_Done, Halloc.
  cbv zeta. simpl _value.
  rewrite bool_decide_eq_true_2 by discriminate.
  unfold assert. rewrite bind_Done.
  erewrite strcpy_heap; cycle 1.
  { rewrite <- Hs. apply read_frame. intros v ->. simpl.
    apply lookup_insert_ne. congruence. }
  { exact Hvalue. }
  { simpl. apply lookup_insert_eq. }
  { simpl. lia. }
  rewrite bind_Done. eexists p, _. split; [reflexivity|].
  simpl. rewrite lookup_insert_eq. reflexivity.
Qed.

(** With a buffer in place, [set_value] first frees it. *)
Lemma set_value_frees value a b (h : cheap) :
  buffers h !! a = Some b ->
  set_value value {| _value := heap_ptr a |} h =
  set_value value {| _value := NULL |}
    {| buffers := delete a (buffers h); available := available h + capacity b |}.
Proof.
  intros Hb. unfold set_value. simpl _value.
  rewrite bool_decide_eq_true_2 by discriminate.
  rewrite bool_decide_eq_false_2 by (intros H; apply H; reflexivity).
  simpl FreeHeap. rewrite Hb. reflexivity.
Qed.

(** [set_value] replaces the stored string when the argument is a readable
    string other than the stored one and the allocation succeeds. *)
Lemma set_value_replaces value this h s :
  read h value = Done s -> value <> _value this ->
  (_value this = NULL \/ exists a, _value this = heap_ptr a /\ is_Some (buffers h !! a)) ->
  String.length s + 1 <= available h ->
  exists ps h', set_value value this h = Done (true, ps, h') /\ stored h' ps = Done s.
Proof.
  intros Hs Hne Hthis Havail. unfold stored. destruct this as [v]. simpl in *.
  destruct Hthis as [-> | (a & -> & [b Hb])].
  - destruct (set_value_null value h s Hs Havail) as (p & h' & -> & Hread).
    eexists _, h'. split; [reflexivity | exact Hread].
  - rewrite (set_value_frees value a b h Hb).
    set (h1 := {| buffers := delete a (buffers h);
                  available := available h + capacity b |}).
    assert (Hs1 : read h1 value = Done s).
    { rewrite <- Hs. apply read_frame. intros v ->. simpl.
      apply lookup_delete_ne. congruence. }
    destruct (set_value_null value h1 s Hs1) as (p & h' & -> & Hread).
    { simpl. lia. }
    eexists _, h'. split; [reflexivity | exact Hread].
Qed.

(** C9: a property that is not writeable rejects the update: the call
    returns [false] and neither the object nor the C heap changes, so the
    stored value is what it was; a writeable property hands the call to
    [set_value], whose result it returns, and [set_value] replaces the
    stored string by the argument. *)
Theorem set_writeable_value_guard :
  forall (value : char_ptr) (this : SystemProperty) (h : cheap),
    (writeable this = false ->
       set_writeable_value value this h = Done (false, this, h)) /\
    (writeable this = true ->
       set_writeable_value value this h =
       ('(r, ps, h') ← set_value value (super this) h;
        Done (r, with_super ps this, h'))) /\
    (writeable this = true ->
     forall s,
       read h value = Done s -> value <> _value (super this) ->
       (_value (super this) = NULL \/
        exists a, _value (super this) = heap_ptr a /\ is_Some (buffers h !! a)) ->
       String.length s + 1 <= available h ->
       exists this' h',
         set_writeable_value value this h = Done (true, this', h') /\
         stored h' (super this') = Done s /\
         (key this', next this', internal this', writeable this') =
         (key this, next this, internal this, writeable this)).
Proof.
  intros value this h. split; [|split].
  - intros Hw. unfold set_writeable_value. rewrite Hw. reflexivity.
  - intros Hw. unfold set_writeable_value. rewrite Hw. reflexivity.
  - intros Hw s Hs Hne Hthis Havail. unfold set_writeable_value. rewrite Hw.
    destruct (set_value_replaces value (super this) h s Hs Hne Hthis Havail)
      as (ps & h' & -> & Hstored).
    rewrite bind_Done. exists (with_super ps this), h'.
    split; [reflexivity|]. split; [exact Hstored|].
    unfold writeable in *. simpl. rewrite Hw. reflexivity.
Qed.

Lemma append_value_joins_witness :
  exists sp h',
    append_value ":" (static_ptr "/c") {| _value := heap_ptr 1 |} sample_heap
    = Done ({| _value := heap_ptr sp |}, h') /\
    read h' (heap_ptr sp) = Done "/a/b:/c"%string /\
    buffers h' !! 1%positive = None.
Proof.
  destruct (append_value_joins ":" {| _value := heap_ptr 1 |} sample_heap
              (static_ptr "/c") 1%positive "/a/b" "/c")
    as (sp & h' & H1 & _ & _ & H2 & H3 & _).
  - reflexivity.
  - reflexivity.
  - discriminate.
  - reflexivity.
  - simpl. lia.
  - simpl. lia.
  - exists sp, h'. split; [exact H1|]. split; [exact H2 | exact H3].
Defined.

Lemma set_writeable_value_guard_witness :
  set_writeable_value (static_ptr "/c") (sample_property false) sample_heap
  = Done (false, sample_property false, sample_heap) /\
  exists this' h',
    set_writeable_value (static_ptr "/c") (sample_property true) sample_heap
    = Done (true, this', h') /\
    stored h' (super this') = Done "/c"%string.
Proof.
  split.
  - apply (set_writeable_value_guard (static_ptr "/c") (sample_property false) sample_heap).
    reflexivity.
  - destruct (proj2 (proj2 (set_writeable_value_guard (static_ptr "/c")
                              (sample_property true) sample_heap))
                eq_refl "/c"%string) as (this' & h' & H1 & H2 & _).
    + reflexivity.
    + discriminate.
    + right. exists 1%positive. split; [reflexivity|]. eexists. reflexivity.
    + simpl. lia.
    + exists this', h'. split; [exact H1 | exact H2].
Defined.

(** The two assumptions on the platform are needed: the buffer of
    [len + 2] bytes has room for a separator of one character only, and
    a failed allocation stops the call at the assertion. *)
Example append_value_two_character_separator :
  append_value "::" (static_ptr "/c") {| _value := heap_ptr 1 |} sample_heap = Undefined.
Proof. reflexivity. Qed.

Example append_value_out_of_memory :
  append_value ":" (static_ptr "/c") {| _value := heap_ptr 1 |}
    {| buffers := buffers sample_heap; available := 7 |}
  = Fatal "Unable to allocate space for new append path value".
Proof. reflexivity. Qed.

(** [set_value] frees the old buffer before it reads its argument: handing
    it the stored string itself reads a freed buffer. *)
Example set_value_of_own_buffer :
  set_value (heap_ptr 1) {| _value := heap_ptr 1 |} sample_heap = Undefined.
Proof. reflexivity. Qed.

End PathsFacts.

Module PropertyListFacts.
Import PropertyList.

Section unique_add.
Variable sep : string.
Implicit Types (plist : list SystemProperty) (k v : string).

Lemma unique_add_absent plist k v append :
  k ∉ keys plist ->
  PropertyList_unique_add sep plist k v append = PropertyList_add plist k v.
Proof.
  induction plist as [|p rest IH]; intros Hk; [reflexivity|].
  apply not_elem_of_cons in Hk as [Hne Hk]. simpl.
  destruct (String.eqb_spec k (key p)) as [E|_]; [contradiction|].
  rewrite IH by exact Hk. reflexivity.
Qed.

Lemma unique_add_present plist1 p plist2 k v append :
  k ∉ keys plist1 -> key p = k ->
  PropertyList_unique_add sep (plist1 ++ p :: plist2) k v append =
  plist1 ++ (if append then append_value sep v p else set_value v p) :: plist2.
Proof.
  intros Hk Hp. induction plist1 as [|q rest IH]; simpl.
  - rewrite <- Hp, String.eqb_refl. reflexivity.
  - apply not_elem_of_cons in Hk as [Hne Hk].
    destruct (String.eqb_spec k (key q)) as [E|_]; [contradiction|].
    rewrite IH by exact Hk. reflexivity.
Qed.

Lemma keys_unique_add plist k v append :
  keys (PropertyList_unique_add sep plist k v append) =
  if bool_decide (k ∈ keys plist) then keys plist else keys plist ++ [k].
Proof.
  induction plist as [|p rest IH]; [reflexivity|].
  cbn [PropertyList_unique_add].
  destruct (String.eqb_spec k (key p)) as [E|Hne].
  - rewrite bool_decide_eq_true_2 by (rewrite E; left).
    destruct append; reflexivity.
  - cbn [keys map]. fold (keys (PropertyList_unique_add sep rest k v append)). rewrite IH.
    fold (keys rest).
    destruct (decide (k ∈ keys rest)) as [Hin|Hin].
    + rewrite !bool_decide_eq_true_2; [reflexivity | right; exact Hin | exact Hin].
    + rewrite !bool_decide_eq_false_2; [reflexivity | | exact Hin].
      intros H. apply elem_of_cons in H as [H|H]; contradiction.
Qed.

(** [unique_add] keeps the invariant of the data model. *)
Lemma unique_add_unique_keys plist k v append :
  unique_keys plist -> unique_keys (PropertyList_unique_add sep plist k v append).
Proof.
  unfold unique_keys. intros Hnd. rewrite keys_unique_add.
  case_bool_decide as Hin; [exact Hnd|].
  apply NoDup_app. split; [exact Hnd|]. split; [|apply NoDup_singleton].
  intros x Hx Hx'. apply list_elem_of_singleton in Hx'. subst x. contradiction.
Qed.

Lemma key_elem_of plist p : p ∈ plist -> key p ∈ keys plist.
Proof. intros H. unfold keys. apply list_elem_of_fmap. eauto. Qed.

(** In a list with a single node for [k], that node sits at one position. *)
Lemma holds_key_middle plist1 p plist2 k j :
  k ∉ keys plist1 -> k ∉ keys plist2 ->
  holds_key (plist1 ++ p :: plist2) k j -> j = length plist1.
Proof.
  intros H1 H2 (q & Hq & Hk).
  destruct (Nat.lt_trichotomy j (length plist1)) as [Hlt|[Heq|Hgt]]; [|exact Heq|]; exfalso.
  - rewrite lookup_app_l in Hq by exact Hlt.
    apply H1. rewrite <- Hk. apply key_elem_of. eapply list_elem_of_lookup_2; eauto.
  - rewrite lookup_app_r in Hq by lia.
    destruct (j - length plist1) as [|n] eqn:E; [lia|]. simpl in Hq.
    apply H2. rewrite <- Hk. apply key_elem_of. eapply list_elem_of_lookup_2; eauto.
Qed.

Lemma lookup_middle_ne {A} (l1 : list A) x y l2 j :
  j <> length l1 -> (l1 ++ x :: l2) !! j = (l1 ++ y :: l2) !! j.
Proof.
  intros Hne. destruct (decide (j < length l1)) as [Hlt|Hge].
  - rewrite !lookup_app_l by exact Hlt. reflexivity.
  - rewrite !lookup_app_r by lia.
    destruct (j - length l1) as [|n] eqn:E; [lia | reflexivity].
Qed.

Lemma lookup_middle {A} (l1 : list A) x l2 : (l1 ++ x :: l2) !! length l1 = Some x.
Proof. rewrite lookup_app_r by lia. rewrite Nat.sub_diag. reflexivity. Qed.

(** After one call the list has the shape [before ++ node :: after] with
    the key in the node only. *)
Lemma unique_add_shape plist k v :
  unique_keys plist ->
  exists before p after,
    PropertyList_unique_add sep plist k v false = before ++ p :: after /\
    key p = k /\ value p = v /\ (k ∉ keys before) /\ (k ∉ keys after) /\
    (forall j, j <> length before -> j < length plist ->
               (before ++ p :: after) !! j = plist !! j) /\
    (k ∈ keys plist ->
       length (before ++ p :: after) = length plist /\ holds_key plist k (length before)) /\
    (k ∉ keys plist -> before = plist /\ after = []).
Proof.
  intros Hnd. destruct (decide (k ∈ keys plist)) as [Hin|Hout].
  - unfold keys in Hin. apply list_elem_of_fmap in Hin as (p & Hk & Hp).
    apply list_elem_of_split in Hp as (l1 & l2 & ->).
    unfold unique_keys, keys in Hnd. rewrite fmap_app, fmap_cons in Hnd.
    apply NoDup_app in Hnd as (_ & Hdisj & Hnd2). apply NoDup_cons in Hnd2 as [Hk2 _].
    assert (Hk1 : k ∉ keys l1).
    { intros H. apply (Hdisj k H). rewrite Hk. left. }
    rewrite <- Hk in Hk2.
    exists l1, (set_value v p), l2.
    rewrite (unique_add_present l1 p l2 k v false Hk1 (eq_sym Hk)).
    split; [reflexivity|]. split; [symmetry; exact Hk|]. split; [reflexivity|].
    split; [exact Hk1|]. split; [exact Hk2|]. split; [|split].
    + intros j Hj _. apply lookup_middle_ne, Hj.
    + intros _. split; [rewrite !length_app; reflexivity|].
      exists p. split; [apply lookup_middle | symmetry; exact Hk].
    + intros Hout. exfalso. apply Hout. unfold keys. rewrite fmap_app, fmap_cons.
      apply elem_of_app. right. rewrite Hk. left.
  - exists plist, {| key := k; value := v; writeable := true; internal := false |}, [].
    rewrite (unique_add_absent plist k v false Hout).
    split; [reflexivity|]. split; [reflexivity|]. split; [reflexivity|].
    split; [exact Hout|]. split; [intros H; inversion H|]. split; [|split].
    + intros j _ Hj. apply lookup_app_l, Hj.
    + intros Hin. contradiction.
    + intros _. split; reflexivity.
Qed.

(** C3: on a property list whose keys are unique, two calls of
    [unique_add] with the same key and [append = false] leave exactly one
    node with that key; it holds the value of the second call and sits
    where the node with that key sat after the first call; all other nodes
    are the same and in the same order, after the first call as before it.
    When the key is absent, a call appends the new node at the tail. *)
Theorem unique_add_twice :
  forall (plist : list SystemProperty) (k v1 v2 : string),
    unique_keys plist ->
    let plist1 := PropertyList_unique_add3 sep plist k v1 in
    let plist2 := PropertyList_unique_add3 sep plist1 k v2 in
    (exists i p,
       plist2 !! i = Some p /\ key p = k /\ value p = v2 /\
       (forall j, holds_key plist2 k j -> j = i) /\
       holds_key plist1 k i /\
       length plist2 = length plist1 /\
       (forall j, j <> i -> plist2 !! j = plist1 !! j) /\
       (forall j, j <> i -> j < length plist -> plist1 !! j = plist !! j) /\
       (k ∈ keys plist -> length plist1 = length plist /\ holds_key plist k i)) /\
    PropertyList_get_value plist2 k = Some v2 /\
    (k ∉ keys plist ->
       forall v append,
         PropertyList_unique_add sep plist k v append =
         plist ++ [{| key := k; value := v; writeable := true; internal := false |}]).
Proof.
  intros plist k v1 v2 Hnd plist1 plist2.
  destruct (unique_add_shape plist k v1 Hnd)
    as (l1 & p1 & l2 & Hshape & Hk & Hv & Hk1 & Hk2 & Hsame & Hin & Hout).
  assert (E1 : plist1 = l1 ++ p1 :: l2) by exact Hshape.
  assert (E2 : plist2 = l1 ++ set_value v2 p1 :: l2).
  { unfold plist2, PropertyList_unique_add3. rewrite E1.
    apply (unique_add_present l1 p1 l2 k v2 false Hk1 Hk). }
  split; [|split].
  - exists (length l1), (set_value v2 p1). rewrite E1, E2.
    split; [apply lookup_middle|]. split; [exact Hk|]. split; [reflexivity|].
    split; [intros j; apply holds_key_middle; assumption|].
    split; [exists p1; split; [apply lookup_middle | exact Hk]|].
    split; [rewrite !length_app; reflexivity|].
    split; [intros j Hj; apply lookup_middle_ne, Hj|].
    split; [exact Hsame | exact Hin].
  - rewrite E2. clear -Hk Hk1.
    induction l1 as [|q rest IH]; simpl.
    + rewrite <- Hk, String.eqb_refl. reflexivity.
    + apply not_elem_of_cons in Hk1 as [Hne Hk1].
      destruct (String.eqb_spec k (key q)) as [E|_]; [contradiction|].
      apply IH, Hk1.
  - intros Habs v append. apply unique_add_absent, Habs.
Qed.

End unique_add.

Lemma unique_add_twice_witness :
  PropertyList_get_value
    (PropertyList_unique_add3 ":"
       (PropertyList_unique_add3 ":" sample_list "java.class.path" "a.jar")
       "java.class.path" "b.jar")
    "java.class.path" = Some "b.jar"%string.
Proof.
  refine (proj1 (proj2 (unique_add_twice ":" sample_list "java.class.path"
                          "a.jar" "b.jar" _))).
  unfold unique_keys. simpl. repeat constructor.
  - intros H. apply list_elem_of_In in H. simpl in H.
    destruct H as [H|[H|[]]]; discriminate H.
  - intros H. apply list_elem_of_In in H. simpl in H.
    destruct H as [H|[]]; discriminate H.
  - intros H. inversion H.
Defined.

Example unique_add_twice_sample :
  PropertyList_unique_add3 ":"
    (PropertyList_unique_add3 ":" sample_list "java.class.path" "a.jar")
    "java.class.path" "b.jar" =
  [ {| key := "java.home"; value := "/jdk"; writeable := true; internal := false |};
    {| key := "java.class.path"; value := "b.jar"; writeable := true; internal := false |};
    {| key := "user.dir"; value := "/tmp"; writeable := true; internal := false |} ].
Proof. reflexivity. Qed.

End PropertyListFacts.

Module OptionSourcesFacts.
Import OptionSources.

Section merge.
Variable normalize : string -> result (string * FlagValue).
Implicit Types (flags : gmap string ResolvedFlag) (args : list string).

Lemma precedence_command_line o : precedence o <= precedence command_line.
Proof. destruct o; simpl; lia. Qed.

Lemma record_flag_same name v o flags :
  outranked_by o flags name ->
  record_flag name v o flags !! name = Some {| flag_value := v; flag_origin := o |}.
Proof.
  intros H. unfold record_flag. destruct (flags !! name) as [old|] eqn:E.
  - destruct (Nat.leb_spec (precedence (flag_origin old)) (precedence o)) as [_|Hlt].
    + apply lookup_insert_eq.
    + specialize (H old E). lia.
  - apply lookup_insert_eq.
Qed.

Lemma record_flag_other name n v o flags :
  n <> name -> record_flag n v o flags !! name = flags !! name.
Proof.
  intros Hne. unfold record_flag. destruct (flags !! n) as [old|].
  - destruct (_ <=? _); [apply lookup_insert_ne; exact Hne | reflexivity].
  - apply lookup_insert_ne. exact Hne.
Qed.

Lemma record_flag_outranked name n v o flags :
  outranked_by o flags name -> outranked_by o (record_flag n v o flags) name.
Proof.
  intros H old. destruct (decide (n = name)) as [->|Hne].
  - rewrite (record_flag_same name v o flags H). intros [= <-]. simpl. lia.
  - rewrite (record_flag_other name n v o flags Hne). apply H.
Qed.

(** A source that does not mention [name] leaves its entry alone. *)
Lemma parse_each_untouched name args : forall origin flags flags',
  last_setting normalize name args = None ->
  parse_each_vm_init_arg normalize args origin flags = Ok flags' ->
  flags' !! name = flags !! name.
Proof.
  induction args as [|option rest IH]; intros origin flags flags' Hlast Hrun; simpl in *.
  - inversion Hrun. reflexivity.
  - destruct (last_setting normalize name rest) eqn:Hrest; [discriminate|].
    destruct (normalize option) as [[n v]|e]; [|discriminate]. simpl in Hrun.
    destruct (String.eqb_spec n name) as [_|Hne]; [discriminate|].
    rewrite (IH _ _ _ eq_refl Hrun). apply record_flag_other, Hne.
Qed.

(** A source that sets [name] and is not outranked leaves its last value. *)
Lemma parse_each_last name args : forall origin flags flags' v,
  outranked_by origin flags name ->
  last_setting normalize name args = Some v ->
  parse_each_vm_init_arg normalize args origin flags = Ok flags' ->
  flags' !! name = Some {| flag_value := v; flag_origin := origin |}.
Proof.
  induction args as [|option rest IH]; intros origin flags flags' v Hrank Hlast Hrun;
    simpl in *; [discriminate|].
  destruct (normalize option) as [[n v0]|e] eqn:Hnorm; [|discriminate]. simpl in Hrun.
  destruct (last_setting normalize name rest) as [v'|] eqn:Hrest.
  - inversion Hlast; subst v'.
    eapply IH; [|reflexivity|exact Hrun]. apply record_flag_outranked, Hrank.
  - destruct (String.eqb_spec n name) as [->|Hne]; [|discriminate].
    inversion Hlast; subst v0.
    rewrite (parse_each_untouched name rest _ _ _ Hrest Hrun).
    apply record_flag_same, Hrank.
Qed.

(** C2: when the merging stage succeeds, a flag that an environment-variable
    source sets and the command line sets too is resolved to the value the
    command line gives it (its last token for that name), with the command
    line as origin. *)
Theorem command_line_overrides_environment :
  forall (java_tool_options_args java_options_args cmd_line_args : list string)
         (flags0 flags : gmap string ResolvedFlag) (name : string) (v : FlagValue),
    parse_vm_init_args normalize java_tool_options_args java_options_args
      cmd_line_args flags0 = Ok flags ->
    (exists option,
        option ∈ java_tool_options_args ++ java_options_args /\
        sets normalize name option) ->
    last_setting normalize name cmd_line_args = Some v ->
    flags !! name = Some {| flag_value := v; flag_origin := command_line |}.
Proof.
  intros jto jo cmd flags0 flags name v Hrun _ Hlast.
  unfold parse_vm_init_args in Hrun.
  destruct (parse_each_vm_init_arg normalize jto env_TOOL_OPTIONS flags0)
    as [flags1|e]; [|discriminate]. simpl in Hrun.
  destruct (parse_each_vm_init_arg normalize jo env_OPTIONS flags1)
    as [flags2|e]; [|discriminate]. simpl in Hrun.
  eapply parse_each_last; [|exact Hlast|exact Hrun].
  intros old _. apply precedence_command_line.
Qed.

(** The merging stage succeeds when every token is recognized. *)
Lemma parse_each_succeeds args : forall origin flags,
  Forall (fun option => exists nv, normalize option = Ok nv) args ->
  exists flags', parse_each_vm_init_arg normalize args origin flags = Ok flags'.
Proof.
  induction args as [|option rest IH]; intros origin flags Hall; simpl; [eauto|].
  apply Forall_cons in Hall as [[[n v] ->] Hall]. simpl. apply IH, Hall.
Qed.

End merge.

Lemma command_line_overrides_environment_witness :
  exists flags,
    parse_vm_init_args sample_normalize
      ["-XX:+UseCompressedOops"%string] []
      ["-XX:-UseCompressedOops"%string; "-XX:+PrintFlagsFinal"%string] ∅ = Ok flags /\
    flags !! "UseCompressedOops"%string =
    Some {| flag_value := bool_value false; flag_origin := command_line |}.
Proof.
  destruct (parse_vm_init_args sample_normalize
              ["-XX:+UseCompressedOops"%string] []
              ["-XX:-UseCompressedOops"%string; "-XX:+PrintFlagsFinal"%string] ∅)
    as [flags|e] eqn:Hrun.
  - exists flags. split; [reflexivity|].
    apply (command_line_overrides_environment sample_normalize _ _ _ _ _ _ _ Hrun).
    + exists "-XX:+UseCompressedOops"%string. split; [left|].
      exists (bool_value true). reflexivity.
    + reflexivity.
  - vm_compute in Hrun. discriminate Hrun.
Defined.

End OptionSourcesFacts.

Module ErgonomicsFacts.
Import Ergonomics.
Local Open Scope Z_scope.

Lemma align_up_ge size a : 0 < a -> size <= align_up size a.
Proof.
  intros Ha. unfold align_up.
  pose proof (Z.div_mod (size + a - 1) a ltac:(lia)) as Hdm.
  pose proof (Z.mod_pos_bound (size + a - 1) a Ha) as Hmod.
  rewrite Z.mul_comm. lia.
Qed.

Lemma align_up_multiple size a : (a | align_up size a).
Proof. unfold align_up. apply Z.divide_factor_r. Qed.

Lemma align_up_mono x y a : 0 < a -> x <= y -> align_up x a <= align_up y a.
Proof.
  intros Ha Hxy. unfold align_up. apply Z.mul_le_mono_nonneg_r; [lia|].
  apply Z.div_le_mono; lia.
Qed.

Section resolver.
Variable select_gc_ergonomically : OSQuery -> Collector.
Variable collector_granularity : Collector -> Z.
Variable compressed_oops_alignment : Z.
Variable max_heap_for_compressed_oops : Z.
Variables MinRAMFraction InitialRAMFraction MaxRAMFraction : Z.
Variable collector_defaults : Collector -> gmap string OptionSources.FlagValue.
Variable mode_defaults : Mode -> gmap string OptionSources.FlagValue.
Variable check_vm_args_consistency :
  Collector -> gmap string OptionSources.FlagValue -> bool.

#[local] Abbreviation sizing :=
  (set_heap_size MinRAMFraction InitialRAMFraction MaxRAMFraction).
#[local] Abbreviation resolve :=
  (apply_ergo select_gc_ergonomically collector_granularity compressed_oops_alignment
     max_heap_for_compressed_oops MinRAMFraction InitialRAMFraction MaxRAMFraction
     collector_defaults mode_defaults check_vm_args_consistency).

Lemma set_heap_size_inv hf os a coops cfg :
  sizing hf os a coops = Ok cfg ->
  min_size cfg = asked_min MinRAMFraction hf os a /\
  initial_size cfg =
    Z.max (asked_initial InitialRAMFraction hf os a) (asked_min MinRAMFraction hf os a) /\
  max_size cfg =
    Z.max (asked_max MaxRAMFraction hf os a) (asked_min MinRAMFraction hf os a) /\
  initial_size cfg <= max_size cfg /\
  alignment cfg = a.
Proof.
  unfold set_heap_size.
  destruct (match MinHeapSize hf with Some mn => _ | None => false end); [discriminate|].
  fold (asked_min MinRAMFraction hf os a) (asked_initial InitialRAMFraction hf os a)
       (asked_max MaxRAMFraction hf os a).
  destruct (Z.ltb_spec
              (Z.max (asked_max MaxRAMFraction hf os a) (asked_min MinRAMFraction hf os a))
              (Z.max (asked_initial InitialRAMFraction hf os a)
                     (asked_min MinRAMFraction hf os a))); [discriminate|].
  intros [= <-]. simpl. repeat split; try reflexivity. assumption.
Qed.

Lemma ergonomic_size_mono os f g :
  0 < g <= f -> 0 <= physical_memory os -> ergonomic_size os f <= ergonomic_size os g.
Proof.
  intros Hfg Hphys. unfold ergonomic_size, limit_by_allocatable_memory.
  apply Z.min_le_compat_r. apply Z.div_le_compat_l; lia.
Qed.

(** C6: when heap sizing succeeds, [min <= initial <= max]; [initial] and
    [max] are what was asked for or, if that was lower, [min], so a
    correction only raises a value to [min], and no explicit value ends up
    lowered; an explicit maximum below an explicit minimum fails with
    [UnreconcilableBound]; with an explicit minimum of 256m the resolved
    [initial] and [max] are at least 256m, and when the minimum is the only
    explicit size (the fractions for the two others being ordered) the
    sizing succeeds. *)
Theorem set_heap_size_bounds :
  forall (hf : HeapFlags) (os : OSQuery) (a : Z) (coops : bool),
    0 < a ->
    (forall cfg, sizing hf os a coops = Ok cfg ->
       min_size cfg <= initial_size cfg <= max_size cfg /\
       initial_size cfg = Z.max (asked_initial InitialRAMFraction hf os a) (min_size cfg) /\
       max_size cfg = Z.max (asked_max MaxRAMFraction hf os a) (min_size cfg) /\
       (forall v, MinHeapSize hf = Some v -> v <= min_size cfg) /\
       (forall v, InitialHeapSize hf = Some v -> v <= initial_size cfg) /\
       (forall v, MaxHeapSize hf = Some v -> v <= max_size cfg) /\
       (MinHeapSize hf = Some (256 * MB) ->
          256 * MB <= initial_size cfg /\ 256 * MB <= max_size cfg)) /\
    (forall mn mx, MinHeapSize hf = Some mn -> MaxHeapSize hf = Some mx -> mx < mn ->
       sizing hf os a coops = Failed UnreconcilableBound) /\
    (InitialHeapSize hf = None -> MaxHeapSize hf = None ->
     0 < MaxRAMFraction <= InitialRAMFraction -> 0 <= physical_memory os ->
     exists cfg, sizing hf os a coops = Ok cfg).
Proof.
  intros hf os a coops Ha. split; [|split].
  - intros cfg Hok.
    destruct (set_heap_size_inv hf os a coops cfg Hok) as (Hmin & Hini & Hmax & Hle & _).
    rewrite <- Hmin in Hini, Hmax.
    assert (Hexp_min : forall v, MinHeapSize hf = Some v -> v <= min_size cfg).
    { intros v Hv. rewrite Hmin. unfold asked_min. rewrite Hv. simpl.
      apply align_up_ge, Ha. }
    split; [lia|]. split; [exact Hini|]. split; [exact Hmax|].
    split; [exact Hexp_min|]. split; [|split].
    + intros v Hv. rewrite Hini. unfold asked_initial. rewrite Hv. simpl.
      pose proof (align_up_ge v a Ha). lia.
    + intros v Hv. rewrite Hmax. unfold asked_max. rewrite Hv. simpl.
      pose proof (align_up_ge v a Ha). lia.
    + intros Hv. specialize (Hexp_min _ Hv). lia.
  - intros mn mx Hmn Hmx Hlt. unfold set_heap_size. rewrite Hmn, Hmx.
    destruct (Z.ltb_spec mx mn); [reflexivity | lia].
  - intros Hini Hmax Hfrac Hphys.
    assert (Hmono : asked_initial InitialRAMFraction hf os a
                    <= asked_max MaxRAMFraction hf os a).
    { unfold asked_initial, asked_max. rewrite Hini, Hmax. simpl.
      apply align_up_mono; [exact Ha | apply ergonomic_size_mono; assumption]. }
    unfold set_heap_size. cbv zeta. rewrite Hmax.
    replace (match MinHeapSize hf with Some _ => false | None => false end) with false
      by (destruct (MinHeapSize hf); reflexivity).
    match goal with
    | |- context [Z.max ?x ?y <? Z.max ?z ?y] =>
        destruct (Z.ltb_spec (Z.max x y) (Z.max z y)); [lia | eauto]
    end.
Qed.

(** C7: with more than one explicit collector flag the resolver stops in its
    first stage with [ConflictingSelection]: the state it returns has no
    collector, no alignment and no heap configuration; with exactly one
    explicit flag the collector it goes on with is that one; with none it is
    the one the heuristics choose. *)
Theorem select_gc_conflict :
  forall (input : Input),
    (1 < length (explicit_collectors (collector_flags input)) ->
       select_gc select_gc_ergonomically (collector_flags input) (os input)
         = Failed ConflictingSelection /\
       resolve input = (undecided, Some ConflictingSelection) /\
       gc (fst (resolve input)) = unselected /\
       conservative_max_heap_alignment (fst (resolve input)) = None /\
       heap (fst (resolve input)) = None)%nat /\
    (forall c, explicit_collectors (collector_flags input) = [c] ->
       select_gc select_gc_ergonomically (collector_flags input) (os input) = Ok c /\
       gc (fst (resolve input)) = selected c) /\
    (explicit_collectors (collector_flags input) = [] ->
       select_gc select_gc_ergonomically (collector_flags input) (os input)
         = Ok (select_gc_ergonomically (os input)) /\
       gc (fst (resolve input)) = selected (select_gc_ergonomically (os input))).
Proof.
  intros input.
  assert (Hgc : forall c,
             select_gc select_gc_ergonomically (collector_flags input) (os input) = Ok c ->
             gc (fst (resolve input)) = selected c).
  { intros c Hc. unfold apply_ergo. rewrite Hc.
    destruct (set_heap_size _ _ _ _ _ _ _) as [cfg|e]; [|reflexivity].
    destruct (check_vm_args_consistency _ _); reflexivity. }
  split; [|split].
  - intros Hmany.
    assert (Hsel : select_gc select_gc_ergonomically (collector_flags input) (os input)
                   = Failed ConflictingSelection).
    { unfold select_gc, check_gc_consistency.
      destruct (explicit_collectors (collector_flags input)) as [|c [|c' rest]];
        simpl in Hmany; [lia | lia | reflexivity]. }
    assert (Hres : resolve input = (undecided, Some ConflictingSelection)).
    { unfold apply_ergo. rewrite Hsel. reflexivity. }
    rewrite Hres. repeat split; assumption || reflexivity.
  - intros c Hone.
    assert (Hsel : select_gc select_gc_ergonomically (collector_flags input) (os input)
                   = Ok c).
    { unfold select_gc, check_gc_consistency. rewrite Hone. reflexivity. }
    split; [exact Hsel | apply Hgc, Hsel].
  - intros Hnone.
    assert (Hsel : select_gc select_gc_ergonomically (collector_flags input) (os input)
                   = Ok (select_gc_ergonomically (os input))).
    { unfold select_gc, check_gc_consistency. rewrite Hnone. reflexivity. }
    split; [exact Hsel | apply Hgc, Hsel].
Qed.

End resolver.

Lemma set_heap_size_bounds_witness :
  exists cfg,
    set_heap_size 64 64 4
      {| MinHeapSize := Some (256 * MB); InitialHeapSize := None; MaxHeapSize := None |}
      sample_os (2 * MB) true = Ok cfg /\
    min_size cfg <= initial_size cfg <= max_size cfg /\
    256 * MB <= initial_size cfg /\ 256 * MB <= max_size cfg.
Proof.
  pose proof (set_heap_size_bounds 64 64 4
                {| MinHeapSize := Some (256 * MB); InitialHeapSize := None;
                   MaxHeapSize := None |}
                sample_os (2 * MB) true ltac:(reflexivity)) as (Hok & _ & Hex).
  destruct Hex as [cfg Hcfg].
  - reflexivity.
  - reflexivity.
  - lia.
  - vm_compute. discriminate.
  - exists cfg. split; [exact Hcfg|].
    destruct (Hok cfg Hcfg) as (Hord & _ & _ & _ & _ & _ & H256).
    split; [exact Hord | exact (H256 eq_refl)].
Defined.

Example explicit_max_below_explicit_min :
  set_heap_size 64 64 4
    {| MinHeapSize := Some (256 * MB); InitialHeapSize := None;
       MaxHeapSize := Some (128 * MB) |}
    sample_os (2 * MB) true = Failed UnreconcilableBound.
Proof. reflexivity. Qed.

Lemma select_gc_conflict_witness :
  apply_ergo sample_heuristics sample_granularity 8 (32768 * MB) 64 64 4
    (fun _ => ∅) (fun _ => ∅) (fun _ _ => true)
    (sample_input false true false true)
  = (undecided, Some ConflictingSelection).
Proof.
  refine (proj1 (proj2 (proj1
            (select_gc_conflict sample_heuristics sample_granularity 8 (32768 * MB)
               64 64 4 (fun _ => ∅) (fun _ => ∅) (fun _ _ => true)
               (sample_input false true false true)) _))).
  simpl. lia.
Defined.

Example one_collector_is_used :
  gc (fst (apply_ergo sample_heuristics sample_granularity 8 (32768 * MB) 64 64 4
             (fun _ => ∅) (fun _ => ∅) (fun _ _ => true)
             (sample_input false true false false)))
  = selected Parallel.
Proof. reflexivity. Qed.

Example no_collector_is_chosen :
  gc (fst (apply_ergo sample_heuristics sample_granularity 8 (32768 * MB) 64 64 4
             (fun _ => ∅) (fun _ => ∅) (fun _ _ => true)
             (sample_input false false false false)))
  = selected G1.
Proof. reflexivity. Qed.

End ErgonomicsFacts.

(** * Part III: further properties of the inline code

    Properties of the members the claims leave out, and of the claims'
    members in combination.  Every definition used here is in Part I. *)

(** ** The agent lists *)

Module AgentsMore.
Import Agents AgentsFacts.

Section more.
Implicit Types (h : gmap positive AgentLibrary) (p q : option positive).
Implicit Types (xs ys : list positive) (l : AgentLibraryList).

Lemma set_next_same (n : AgentLibrary) : set_next (_next n) n = n.
Proof. destruct n; reflexivity. Qed.

Lemma set_next_twice p q (n : AgentLibrary) : set_next p (set_next q n) = set_next p n.
Proof. reflexivity. Qed.

(** The last object of a well-formed list has no successor. *)
Lemma is_list_last h l ys z :
  is_list h l (ys ++ [z]) ->
  _last l = Some z /\ exists n, h !! z = Some n /\ _next n = None.
Proof.
  intros [Hseg Hlast]. rewrite last_snoc in Hlast. split; [exact Hlast|].
  apply seg_app in Hseg as (m & _ & (-> & n & Hn & Hend)). simpl in Hend. eauto.
Qed.

Lemma is_list_nil h l : is_list h l [] -> l = empty_list.
Proof. intros [Hseg Hlast]. destruct l as [f t]. simpl in *. subst. reflexivity. Qed.

Lemma is_list_first_nonempty h l x xs : is_list h l (x :: xs) -> is_empty l = false.
Proof.
  intros [[Hf _] _]. unfold is_empty. rewrite Hf.
  apply bool_decide_eq_false_2. discriminate.
Qed.

(** X1: [AgentLibraryList::add] makes the object the last one of the list
    and clears its link.  An object that is not on the list is appended; an
    object that is already on it stays where it is and the objects that
    followed it drop off the list.  No descriptor field other than a link
    changes, and an object that is neither the added one nor the old last
    one is not written. *)
Theorem add_makes_last :
  forall h l xs (lib : positive) (n : AgentLibrary),
    is_list h l xs -> h !! lib = Some n ->
    exists l' h',
      add (Some lib) l h = Done (l', h') /\
      (lib ∉ xs -> is_list h' l' (xs ++ [lib])) /\
      (forall xs1 xs2, xs = xs1 ++ lib :: xs2 -> is_list h' l' (xs1 ++ [lib])) /\
      _last l' = Some lib /\
      (exists n', h' !! lib = Some n' /\ _next n' = None) /\
      (forall a, a <> lib -> Some a <> last xs -> h' !! a = h !! a) /\
      descriptor <$> h' = descriptor <$> h.
Proof.
  intros h l xs lib n Hl Hn. pose proof Hl as [Hseg Hlast].
  pose proof (seg_NoDup _ _ _ Hseg) as Hnd.
  unfold add. destruct xs as [|z ys _] using rev_ind.
  - (* empty list *)
    rewrite (is_list_nil _ _ Hl). simpl. rewrite Hn. simpl.
    eexists _, _. split; [reflexivity|].
    assert (Hone : is_list (<[lib:=set_next None n]> h)
                     {| _first := Some lib; _last := Some lib |} [lib]).
    { split; [|reflexivity]. simpl. split; [reflexivity|].
      eexists. rewrite lookup_insert_eq. split; reflexivity. }
    split; [intros _; exact Hone|]. split.
    { intros xs1 xs2 E. destruct xs1; discriminate E. }
    split; [reflexivity|]. split.
    { eexists. rewrite lookup_insert_eq. split; reflexivity. }
    split; [intros a Ha _; apply lookup_insert_ne; congruence|].
    apply descriptors_insert, Hn.
  - (* the list has a last object [z] *)
    destruct (is_list_last _ _ _ _ Hl) as (Hlz & nz & Hnz & Hznext).
    assert (Hne : is_empty l = false).
    { destruct ys; simpl in Hl; eapply is_list_first_nonempty; exact Hl. }
    rewrite Hne, Hlz. simpl. rewrite Hnz. simpl.
    assert (Hlib1 : exists n1, <[z:=set_next (Some lib) nz]> h !! lib = Some n1 /\
                               descriptor n1 = descriptor n).
    { destruct (decide (z = lib)) as [->|Hzl].
      - rewrite lookup_insert_eq. eexists. split; [reflexivity|].
        assert (nz = n) by congruence. subst nz. reflexivity.
      - rewrite lookup_insert_ne by exact Hzl. eauto. }
    destruct Hlib1 as (n1 & Hn1 & Hd1). rewrite Hn1. simpl.
    set (h2 := <[lib:=set_next None n1]> (<[z:=set_next (Some lib) nz]> h)).
    assert (Hframe : forall a, a <> lib -> a <> z -> h2 !! a = h !! a).
    { intros a Ha Hz. unfold h2. rewrite !lookup_insert_ne by congruence. reflexivity. }
    assert (Hlib2 : h2 !! lib = Some (set_next None n1)) by apply lookup_insert_eq.
    eexists _, h2. split; [reflexivity|].
    split; [|split; [|split; [|split; [|split]]]].
    + intros Hout. split; [|simpl; rewrite last_snoc; reflexivity]. simpl.
      assert (Hzl : z <> lib).
      { intros ->. apply Hout. apply elem_of_app. right. left. }
      apply seg_app in Hseg as (m & Hys & (-> & _)).
      rewrite <- app_assoc. apply seg_app. exists (Some z). split.
      * eapply seg_frame; [|exact Hys]. intros y Hy. apply Hframe.
        -- intros ->. apply Hout. apply elem_of_app. left. exact Hy.
        -- intros ->. apply NoDup_app in Hnd as (_ & Hnd & _). apply (Hnd z Hy). left.
      * simpl. split; [reflexivity|]. exists (set_next (Some lib) nz). split.
        -- unfold h2. rewrite lookup_insert_ne by congruence. apply lookup_insert_eq.
        -- simpl. split; [reflexivity|]. eexists. split; [exact Hlib2 | reflexivity].
    + intros xs1 xs2 E. split; [|simpl; rewrite last_snoc; reflexivity]. simpl.
      rewrite E in Hseg, Hnd.
      apply seg_app in Hseg as (m & Hxs1 & (-> & _)).
      apply seg_app. exists (Some lib). split.
      * eapply seg_frame; [|exact Hxs1]. intros y Hy.
        apply NoDup_app in Hnd as (_ & Hdisj & _). apply Hframe.
        -- intros ->. apply (Hdisj lib Hy). left.
        -- intros ->. apply (Hdisj z Hy).
           assert (Hz : z ∈ xs1 ++ lib :: xs2) by (rewrite <- E; apply elem_of_app; right; left).
           apply elem_of_app in Hz as [Hz|Hz]; [|exact Hz].
           exfalso. apply (Hdisj z Hz).
           (* z is the last element, hence in the part from [lib] on *)
           assert (Hl' : last (xs1 ++ lib :: xs2) = Some z) by (rewrite <- E; apply last_snoc).
           rewrite last_app in Hl'. destruct (last (lib :: xs2)) as [w|] eqn:Hw.
           ++ inversion Hl'; subst w. apply last_Some_elem_of in Hw. exact Hw.
           ++ apply last_None in Hw. discriminate Hw.
      * simpl. split; [reflexivity|]. eexists. split; [exact Hlib2 | reflexivity].
    + reflexivity.
    + eexists. split; [exact Hlib2 | reflexivity].
    + intros a Ha Hz. rewrite last_snoc in Hz. apply Hframe; congruence.
    + unfold h2. rewrite descriptors_insert by exact Hn1.
      apply descriptors_insert, Hnz.
Qed.


(** X2: removing an object right after adding it gives the list back as
    it was: the same [_first] and [_last], and a store that differs from the
    old one only in the cleared link of that object. *)
Theorem add_then_remove :
  forall h l xs (lib : positive) (n : AgentLibrary),
    is_list h l xs -> h !! lib = Some n -> lib ∉ xs ->
    ('(l1, h1) ← add (Some lib) l h; remove (Some lib) l1 h1)
    = Done (l, <[lib := set_next None n]> h).
Proof.
  intros h l xs lib n Hl Hn Hout.
  destruct (add_spec h l xs lib n Hl Hn Hout) as (l1 & h1 & Hadd & Hnew & _).
  rewrite Hadd. simpl.
  pose proof (remove_scan_present h1 l1 xs lib [] Hnew) as Hscan.
  revert Hadd. unfold add.
  destruct xs as [|z ys _] using rev_ind.
  - rewrite (is_list_nil _ _ Hl). simpl. rewrite Hn. simpl. intros [= <- <-].
    unfold remove. rewrite Hscan. simpl. rewrite lookup_insert_eq. simpl.
    rewrite insert_insert_eq, bool_decide_eq_true_2 by reflexivity. reflexivity.
  - destruct (is_list_last _ _ _ _ Hl) as (Hlz & nz & Hnz & Hznext).
    assert (Hne : is_empty l = false).
    { destruct ys; simpl in Hl; eapply is_list_first_nonempty; exact Hl. }
    assert (Hzl : z <> lib).
    { intros ->. apply Hout. apply elem_of_app. right. left. }
    rewrite Hne, Hlz. simpl. rewrite Hnz. simpl.
    rewrite lookup_insert_ne by exact Hzl. rewrite Hn. simpl. intros [= <- <-].
    unfold remove. rewrite Hscan, last_snoc. simpl.
    rewrite lookup_insert_eq. simpl.
    rewrite lookup_insert_ne by congruence. rewrite lookup_insert_eq. simpl.
    rewrite lookup_insert_ne by congruence. rewrite lookup_insert_eq. simpl.
    rewrite bool_decide_eq_true_2 by reflexivity.
    f_equal. f_equal.
    + destruct l as [f t]. simpl in *. subst t. reflexivity.
    + apply map_eq. intros i.
      destruct (decide (i = lib)) as [->|Hil].
      * rewrite !lookup_insert_eq. reflexivity.
      * rewrite !(lookup_insert_ne _ lib) by congruence.
        destruct (decide (i = z)) as [->|Hiz].
        -- rewrite lookup_insert_eq, Hnz. f_equal.
           rewrite set_next_twice, <- Hznext. apply set_next_same.
        -- rewrite !lookup_insert_ne by congruence. reflexivity.
Qed.

(** What [convert_library_to_agent] leaves behind. *)
Lemma convert_result (st : statics) (lib : positive) libs ags :
  is_list (heap st) (_libraryList st) libs ->
  is_list (heap st) (_agentList st) ags ->
  lib ∈ libs -> (forall a, a ∈ libs -> a ∉ ags) ->
  exists st',
    convert_library_to_agent (Some lib) st = Done st' /\
    is_list (heap st') (_libraryList st') (filter (fun a => a <> lib) libs) /\
    is_list (heap st') (_agentList st') (ags ++ [lib]) /\
    descriptor <$> heap st' = descriptor <$> heap st.
Proof.
  intros Hlibs Hags Hin Hdisj.
  assert (Hlibags : lib ∉ ags) by (apply Hdisj, Hin).
  apply list_elem_of_split in Hin as (xs1 & xs2 & ->).
  pose proof (seg_NoDup _ _ _ (proj1 Hlibs)) as Hnd.
  rewrite (filter_ne_split lib xs1 xs2 Hnd).
  destruct (remove_present _ _ _ _ _ Hlibs)
    as (ll & h1 & Hrem & Hll & (n & Hn & _) & Hframe1 & Hdesc1).
  assert (Hags1 : is_list h1 (_agentList st) ags).
  { eapply is_list_frame; [|exact Hags]. intros a Ha. apply Hframe1.
    intros Ha'. exact (Hdisj a Ha' Ha). }
  destruct (add_spec h1 (_agentList st) ags lib n Hags1 Hn Hlibags)
    as (al & h2 & Hadd & Hal & Hframe2 & Hdesc2).
  exists {| heap := h2; _libraryList := ll; _agentList := al |}. simpl.
  split; [|split; [|split]].
  - unfold convert_library_to_agent. rewrite Hrem. simpl. rewrite Hadd. reflexivity.
  - eapply is_list_frame; [|exact Hll]. intros a Ha.
    assert (Ha' : a ∈ xs1 ++ lib :: xs2).
    { apply elem_of_app in Ha as [Ha|Ha]; apply elem_of_app; [left | right; right]; exact Ha. }
    apply Hframe2.
    + intros ->. apply NoDup_app in Hnd as (_ & H1 & H2). apply NoDup_cons in H2 as [H2 _].
      apply elem_of_app in Ha as [Ha|Ha]; [apply (H1 lib Ha); left | contradiction].
    + intros Hlast. symmetry in Hlast. apply last_Some_elem_of in Hlast.
      exact (Hdisj a Ha' Hlast).
  - exact Hal.
  - rewrite Hdesc2. exact Hdesc1.
Qed.

(** X4: [convert_library_to_agent] cannot be repeated: after a conversion
    the object is no longer on the library list, and a second conversion of
    it stops at the assertion of [remove]. *)
Theorem convert_twice_fails :
  forall (st : statics) (lib : positive) (libs ags : list positive),
    is_list (heap st) (_libraryList st) libs ->
    is_list (heap st) (_agentList st) ags ->
    lib ∈ libs -> (forall a, a ∈ libs -> a ∉ ags) ->
    (st' ← convert_library_to_agent (Some lib) st;
     convert_library_to_agent (Some lib) st')
    = Fatal "always should be found".
Proof.
  intros st lib libs ags Hlibs Hags Hin Hdisj.
  destruct (convert_result st lib libs ags Hlibs Hags Hin Hdisj)
    as (st' & -> & Hlibs' & _). simpl.
  unfold convert_library_to_agent.
  rewrite (remove_absent _ _ (Some lib) _ Hlibs'); [reflexivity|].
  intros x Hx [= ->]. apply list_elem_of_filter in Hx as [Hx _]. apply Hx. reflexivity.
Qed.

(** X3: converting every library, in list order, empties the library
    list and appends the libraries to the agent list in the same order,
    after the agents that were there; [init_libraries_at_startup] then
    answers false, and no descriptor field other than a link changes. *)
Theorem convert_all_moves_everything :
  forall (libs ags : list positive) (st : statics),
    is_list (heap st) (_libraryList st) libs ->
    is_list (heap st) (_agentList st) ags ->
    (forall a, a ∈ libs -> a ∉ ags) ->
    exists st',
      convert_all libs st = Done st' /\
      is_list (heap st') (_libraryList st') [] /\
      is_list (heap st') (_agentList st') (ags ++ libs) /\
      init_libraries_at_startup st' = false /\
      descriptor <$> heap st' = descriptor <$> heap st.
Proof.
  induction libs as [|lib rest IH]; intros ags st Hlibs Hags Hdisj.
  - exists st. rewrite app_nil_r.
    split; [reflexivity|]. split; [exact Hlibs|]. split; [exact Hags|].
    split; [|reflexivity].
    unfold init_libraries_at_startup. rewrite (is_list_nil _ _ Hlibs). reflexivity.
  - pose proof (seg_NoDup _ _ _ (proj1 Hlibs)) as Hnd.
    apply NoDup_cons in Hnd as [Hout Hnd].
    destruct (convert_result st lib (lib :: rest) ags Hlibs Hags) as
      (st1 & Hconv & Hlibs1 & Hags1 & Hdesc1); [left | exact Hdisj |].
    rewrite filter_cons_False in Hlibs1 by (intros H; apply H; reflexivity).
    rewrite filter_ne_absent in Hlibs1 by exact Hout.
    destruct (IH (ags ++ [lib]) st1 Hlibs1 Hags1) as (st' & Hall & H1 & H2 & H3 & H4).
    { intros a Ha Ha'. apply elem_of_app in Ha' as [Ha'|Ha'].
      - apply (Hdisj a); [right; exact Ha | exact Ha'].
      - apply list_elem_of_singleton in Ha'. subst a. contradiction. }
    exists st'. simpl. rewrite Hconv. simpl.
    rewrite <- app_assoc in H2. simpl in H2.
    split; [exact Hall|]. split; [exact H1|]. split; [exact H2|].
    split; [exact H3|]. rewrite H4. exact Hdesc1.
Qed.

(** Allocating an object and adding it at the tail of one of the lists. *)
Lemma add_new_object h l xs other ys (obj : AgentLibrary) :
  is_list h l xs -> is_list h other ys ->
  (forall a, a ∈ xs -> a ∉ ys) ->
  let p := fresh (dom h) in
  h !! p = None /\
  exists l' h',
    add (Some p) l (<[p := obj]> h) = Done (l', h') /\
    is_list h' l' (xs ++ [p]) /\
    is_list h' other ys /\
    (exists n, h' !! p = Some n /\ descriptor n = descriptor obj) /\
    (forall a n, h !! a = Some n ->
       exists n', h' !! a = Some n' /\ descriptor n' = descriptor n) /\
    is_empty l' = false.
Proof.
  intros Hl Hother Hdisj p.
  assert (Hp : h !! p = None) by (apply not_elem_of_dom, is_fresh).
  split; [exact Hp|].
  assert (Hfresh : forall zs q r, seg h q zs r -> p ∉ zs).
  { intros zs q r Hseg Hin. destruct (seg_lookup _ _ _ _ _ Hseg Hin) as [n Hn]. congruence. }
  assert (Hl0 : is_list (<[p := obj]> h) l xs).
  { eapply is_list_frame; [|exact Hl]. intros a Ha. apply lookup_insert_ne.
    intros <-. exact (Hfresh _ _ _ (proj1 Hl) Ha). }
  assert (Hother0 : is_list (<[p := obj]> h) other ys).
  { eapply is_list_frame; [|exact Hother]. intros a Ha. apply lookup_insert_ne.
    intros <-. exact (Hfresh _ _ _ (proj1 Hother) Ha). }
  assert (Hpxs : p ∉ xs) by exact (Hfresh _ _ _ (proj1 Hl)).
  destruct (add_spec _ l xs p obj Hl0 (lookup_insert_eq _ _ _) Hpxs)
    as (l' & h' & Hadd & Hnew & Hframe & Hdesc).
  exists l', h'. split; [exact Hadd|].
  split; [exact Hnew|]. split; [|split; [|split]].
  - eapply is_list_frame; [|exact Hother0]. intros a Ha. apply Hframe.
    + intros ->. exact (Hfresh _ _ _ (proj1 Hother) Ha).
    + intros Hlast'. symmetry in Hlast'. apply last_Some_elem_of in Hlast'.
      exact (Hdisj a Hlast' Ha).
  - apply (descriptors_lookup _ _ p obj Hdesc). apply lookup_insert_eq.
  - intros a n Hn. apply (descriptors_lookup _ _ a n Hdesc).
    rewrite lookup_insert_ne; [exact Hn|]. intros <-. congruence.
  - destruct Hnew as [Hseg _]. destruct xs; simpl in Hseg;
      unfold is_empty; rewrite (proj1 Hseg); apply bool_decide_eq_false_2; discriminate.
Qed.

(** X5: [add_init_library] creates a descriptor at an address that was
    not in use, with the given name and options, a relative path, no
    handle, not static and in the invalid state, and puts it at the end of
    the library list.  The agent list and the fields of the existing
    descriptors stay as they are, and [init_libraries_at_startup] answers
    true afterwards. *)
Theorem add_init_library_registers :
  forall (st : statics) (libs ags : list positive) (name : string)
         (options : option string),
    is_list (heap st) (_libraryList st) libs ->
    is_list (heap st) (_agentList st) ags ->
    (forall a, a ∈ libs -> a ∉ ags) ->
    exists st' (p : positive),
      add_init_library name options st = Done st' /\
      heap st !! p = None /\
      is_list (heap st') (_libraryList st') (libs ++ [p]) /\
      is_list (heap st') (_agentList st') ags /\
      (exists n, heap st' !! p = Some n /\
         descriptor n = (name, options, false, false, agent_invalid, 0%Z)) /\
      (forall a n, heap st !! a = Some n ->
         exists n', heap st' !! a = Some n' /\ descriptor n' = descriptor n) /\
      init_libraries_at_startup st' = true.
Proof.
  intros st libs ags name options Hlibs Hags Hdisj.
  destruct (add_new_object _ _ _ _ _ (new_AgentLibrary name options false 0)
              Hlibs Hags Hdisj)
    as (Hp & l' & h' & Hadd & H1 & H2 & H3 & H4 & H5).
  exists {| heap := h'; _libraryList := l'; _agentList := _agentList st |}, (fresh (dom (heap st))).
  unfold add_init_library, new. rewrite Hadd. simpl.
  split; [reflexivity|]. split; [exact Hp|]. split; [exact H1|]. split; [exact H2|].
  split; [exact H3|]. split; [exact H4|].
  unfold init_libraries_at_startup. simpl. rewrite H5. reflexivity.
Qed.

(** X6: [add_init_agent] and the four-argument [add_loaded_agent] create
    a descriptor at an address that was not in use and put it at the end of
    the agent list, leaving the library list alone; the first records a null
    handle, the second the handle it is given, and both leave the
    descriptor invalid.  [init_agents_at_startup] answers true afterwards. *)
Theorem add_init_agent_registers :
  forall (st : statics) (libs ags : list positive) (name : string)
         (options : option string) (absolute_path : bool) (os_lib : Z),
    is_list (heap st) (_libraryList st) libs ->
    is_list (heap st) (_agentList st) ags ->
    (forall a, a ∈ ags -> a ∉ libs) ->
    (exists st' (p : positive),
       add_init_agent name options absolute_path st = Done st' /\
       heap st !! p = None /\
       is_list (heap st') (_agentList st') (ags ++ [p]) /\
       is_list (heap st') (_libraryList st') libs /\
       (exists n, heap st' !! p = Some n /\
          descriptor n = (name, options, absolute_path, false, agent_invalid, 0%Z)) /\
       init_agents_at_startup st' = true) /\
    (exists st' (p : positive),
       add_loaded_agent_new name options absolute_path os_lib st = Done st' /\
       heap st !! p = None /\
       is_list (heap st') (_agentList st') (ags ++ [p]) /\
       is_list (heap st') (_libraryList st') libs /\
       (exists n, heap st' !! p = Some n /\
          descriptor n = (name, options, absolute_path, false, agent_invalid, os_lib)) /\
       init_agents_at_startup st' = true).
Proof.
  intros st libs ags name options absolute_path os_lib Hlibs Hags Hdisj. split.
  - destruct (add_new_object _ _ _ _ _ (new_AgentLibrary name options absolute_path 0)
                Hags Hlibs Hdisj)
      as (Hp & l' & h' & Hadd & H1 & H2 & H3 & _ & H5).
    exists {| heap := h'; _libraryList := _libraryList st; _agentList := l' |},
           (fresh (dom (heap st))).
    unfold add_init_agent, new. rewrite Hadd. simpl.
    split; [reflexivity|]. split; [exact Hp|]. split; [exact H1|]. split; [exact H2|].
    split; [exact H3|].
    unfold init_agents_at_startup. simpl. rewrite H5. reflexivity.
  - destruct (add_new_object _ _ _ _ _ (new_AgentLibrary name options absolute_path os_lib)
                Hags Hlibs Hdisj)
      as (Hp & l' & h' & Hadd & H1 & H2 & H3 & _ & H5).
    exists {| heap := h'; _libraryList := _libraryList st; _agentList := l' |},
           (fresh (dom (heap st))).
    unfold add_loaded_agent_new, new. rewrite Hadd. simpl.
    split; [reflexivity|]. split; [exact Hp|]. split; [exact H1|]. split; [exact H2|].
    split; [exact H3|].
    unfold init_agents_at_startup. simpl. rewrite H5. reflexivity.
Qed.

(** X7: the loop of [remove] has no guard against a chain that runs into
    a cycle: when the chain from [_first] enters a cycle and the object
    looked for is not on it, the search is still running after any number
    of steps, so [remove] and [convert_library_to_agent] never return. *)
Theorem remove_on_a_cycle_never_returns :
  forall (st : statics) (lib : option positive) (xs1 xs2 : list positive) (a : positive),
    seg (heap st) (first (_libraryList st)) xs1 (Some a) ->
    seg (heap st) (Some a) (a :: xs2) (Some a) ->
    (forall x, x ∈ xs1 ++ a :: xs2 -> Some x <> lib) ->
    (forall fuel,
       remove_scan fuel (heap st) lib (first (_libraryList st)) None = Diverges) /\
    remove lib (_libraryList st) (heap st) = Diverges /\
    convert_library_to_agent lib st = Diverges.
Proof.
  intros st lib xs1 xs2 a H1 H2 Hne.
  assert (Hscan : forall fuel,
            remove_scan fuel (heap st) lib (first (_libraryList st)) None = Diverges).
  { intros fuel.
    assert (Hne1 : forall x, x ∈ xs1 -> Some x <> lib).
    { intros x Hx. apply Hne. apply elem_of_app. left. exact Hx. }
    assert (Hne2 : forall x, x ∈ a :: xs2 -> Some x <> lib).
    { intros x Hx. apply Hne. apply elem_of_app. right. exact Hx. }
    destruct (decide (fuel < length xs1)) as [Hlt|Hge].
    - eapply remove_scan_short_of_fuel; eauto.
    - rewrite (remove_scan_skip _ lib xs1 fuel _ _ None H1 Hne1) by lia.
      apply (remove_scan_cycle _ lib a xs2 H2 Hne2). }
  assert (Hrem : remove lib (_libraryList st) (heap st) = Diverges).
  { unfold remove. rewrite Hscan. reflexivity. }
  split; [exact Hscan|].
  split; [exact Hrem|]. unfold convert_library_to_agent. rewrite Hrem. reflexivity.
Qed.

(** The chain of a list only depends on the links of its objects. *)
Lemma seg_links h h' xs : forall p q,
  (forall x, x ∈ xs -> _next <$> h' !! x = _next <$> h !! x) ->
  seg h p xs q -> seg h' p xs q.
Proof.
  induction xs as [|x xs IH]; intros p q Hsame; simpl; [auto|].
  intros (-> & n & Hn & H). split; [reflexivity|].
  assert (Hx : _next <$> h' !! x = Some (_next n)).
  { rewrite Hsame by left. rewrite Hn. reflexivity. }
  apply fmap_Some in Hx as (n' & Hn' & Hnext). exists n'. split; [exact Hn'|].
  rewrite <- Hnext. apply IH; [|exact H]. intros y Hy. apply Hsame. right. exact Hy.
Qed.

Lemma run_setter_next s (n : AgentLibrary) : _next (run_setter s n) = _next n.
Proof. destruct s; reflexivity. Qed.

(** X8: [set_os_lib], [set_static_lib], [set_valid] and [set_invalid],
    called on an allocated descriptor, change the one field they name and
    nothing else: name, options and path kind are kept, other objects are
    not written, and every list that was well formed holds the same objects
    in the same order afterwards. *)
Theorem setters_keep_the_lists :
  forall h (a : positive) (n : AgentLibrary) (s : setter),
    h !! a = Some n ->
    exists h',
      invoke (run_setter s) (Some a) h = Done h' /\
      h' !! a = Some (run_setter s n) /\
      (forall b, b <> a -> h' !! b = h !! b) /\
      (forall l xs, is_list h l xs -> is_list h' l xs) /\
      name (run_setter s n) = name n /\
      options (run_setter s n) = options n /\
      is_absolute_path (run_setter s n) = is_absolute_path n /\
      valid (run_setter s n) =
        match s with
        | call_set_valid => true
        | call_set_invalid => false
        | _ => valid n
        end /\
      os_lib (run_setter s n) =
        match s with call_set_os_lib v => v | _ => os_lib n end /\
      is_static_lib (run_setter s n) =
        match s with call_set_static_lib b => b | _ => is_static_lib n end.
Proof.
  intros h a n s Hn. exists (<[a := run_setter s n]> h).
  split; [simpl; rewrite Hn; reflexivity|].
  split; [apply lookup_insert_eq|].
  split; [intros b Hb; apply lookup_insert_ne; congruence|].
  split.
  - intros l xs [Hseg Hlast]. split; [|exact Hlast].
    eapply seg_links; [|exact Hseg]. intros x _.
    destruct (decide (x = a)) as [->|Hx].
    + rewrite lookup_insert_eq, Hn. simpl. rewrite run_setter_next. reflexivity.
    + rewrite lookup_insert_ne by congruence. reflexivity.
  - destruct s; repeat split.
Qed.

Lemma run_call_keeps_well_formed (c : call) (st : statics) :
  well_formed st ->
  (exists st', run_call c st = Done st' /\ well_formed st') \/
  run_call c st = Fatal "always should be found".
Proof.
  intros (libs & ags & Hlibs & Hags & Hdisj).
  assert (Hdisj' : forall a, a ∈ ags -> a ∉ libs).
  { intros a Ha Ha'. exact (Hdisj a Ha' Ha). }
  assert (Hfresh : forall xs l, is_list (heap st) l xs -> fresh (dom (heap st)) ∉ xs).
  { intros xs l [Hseg _] Hin. destruct (seg_lookup _ _ _ _ _ Hseg Hin) as [n Hn].
    assert (heap st !! fresh (dom (heap st)) = None) by (apply not_elem_of_dom, is_fresh).
    congruence. }
  destruct c as [name options | name options ab | name options ab os | lib]; simpl.
  - left.
    destruct (add_new_object _ _ _ _ _ (new_AgentLibrary name options false 0)
                Hlibs Hags Hdisj) as (_ & l' & h' & Hadd & H1 & H2 & _).
    eexists. unfold add_init_library, new. rewrite Hadd. simpl. split; [reflexivity|].
    exists (libs ++ [fresh (dom (heap st))]), ags. simpl.
    split; [exact H1|]. split; [exact H2|].
    intros a Ha. apply elem_of_app in Ha as [Ha|Ha].
    + apply Hdisj, Ha.
    + apply list_elem_of_singleton in Ha. subst a. exact (Hfresh _ _ Hags).
  - left.
    destruct (add_new_object _ _ _ _ _ (new_AgentLibrary name options ab 0)
                Hags Hlibs Hdisj') as (_ & l' & h' & Hadd & H1 & H2 & _).
    eexists. unfold add_init_agent, new. rewrite Hadd. simpl. split; [reflexivity|].
    exists libs, (ags ++ [fresh (dom (heap st))]). simpl.
    split; [exact H2|]. split; [exact H1|].
    intros a Ha Ha'. apply elem_of_app in Ha' as [Ha'|Ha'].
    + exact (Hdisj a Ha Ha').
    + apply list_elem_of_singleton in Ha'. subst a. exact (Hfresh _ _ Hlibs Ha).
  - left.
    destruct (add_new_object _ _ _ _ _ (new_AgentLibrary name options ab os)
                Hags Hlibs Hdisj') as (_ & l' & h' & Hadd & H1 & H2 & _).
    eexists. unfold add_loaded_agent_new, new. rewrite Hadd. simpl. split; [reflexivity|].
    exists libs, (ags ++ [fresh (dom (heap st))]). simpl.
    split; [exact H2|]. split; [exact H1|].
    intros a Ha Ha'. apply elem_of_app in Ha' as [Ha'|Ha'].
    + exact (Hdisj a Ha Ha').
    + apply list_elem_of_singleton in Ha'. subst a. exact (Hfresh _ _ Hlibs Ha).
  - destruct lib as [lib|].
    + destruct (decide (lib ∈ libs)) as [Hin|Hout].
      * left. destruct (convert_result st lib libs ags Hlibs Hags Hin Hdisj)
          as (st' & Hconv & H1 & H2 & _).
        exists st'. split; [exact Hconv|].
        exists (filter (fun a => a <> lib) libs), (ags ++ [lib]).
        split; [exact H1|]. split; [exact H2|].
        intros a Ha Ha'. apply list_elem_of_filter in Ha as [Hne Ha].
        apply elem_of_app in Ha' as [Ha'|Ha'].
        -- exact (Hdisj a Ha Ha').
        -- apply list_elem_of_singleton in Ha'. contradiction.
      * right. unfold convert_library_to_agent.
        rewrite (remove_absent _ _ (Some lib) _ Hlibs); [reflexivity|].
        intros x Hx [= ->]. contradiction.
    + right. unfold convert_library_to_agent.
      rewrite (remove_absent _ _ None _ Hlibs); [reflexivity|]. discriminate.
Qed.

Lemma well_formed_initial : well_formed initial.
Proof.
  exists [], []. repeat split. intros a Ha. apply elem_of_nil in Ha. contradiction.
Qed.

(** X9: starting from the two empty lists, any sequence of calls of
    [add_init_library], [add_init_agent], the four-argument
    [add_loaded_agent] and [convert_library_to_agent] (with any pointer,
    NULL included) either completes with both lists well formed and without
    a common object, or stops at the assertion of [remove]; it never
    dereferences a pointer that is not allocated and never loops. *)
Theorem lists_stay_well_formed :
  forall (cs : list call),
    match run cs initial with
    | Done st => well_formed st
    | Fatal msg => msg = "always should be found"%string
    | Undefined | Diverges => False
    end.
Proof.
  intros cs.
  assert (Hrun : forall st, well_formed st ->
            match run cs st with
            | Done st' => well_formed st'
            | Fatal msg => msg = "always should be found"%string
            | _ => False
            end).
  { induction cs as [|c cs IH]; intros st Hwf; simpl; [exact Hwf|].
    destruct (run_call_keeps_well_formed c st Hwf) as [(st' & -> & Hwf')| ->]; simpl.
    - apply IH, Hwf'.
    - reflexivity. }
  exact (Hrun initial well_formed_initial).
Qed.

End more.

Lemma sample_disjoint : forall a : positive, a ∈ [1; 2]%positive -> a ∉ [3]%positive.
Proof.
  intros a Ha Ha'. apply list_elem_of_singleton in Ha'. subst a.
  apply elem_of_cons in Ha as [Ha|Ha]; [discriminate Ha|].
  apply list_elem_of_singleton in Ha. discriminate Ha.
Defined.

Lemma sample_disjoint' : forall a : positive, a ∈ [3]%positive -> a ∉ [1; 2]%positive.
Proof. intros a Ha Ha'. exact (sample_disjoint a Ha' Ha). Defined.

Lemma add_makes_last_witness :
  exists l' h',
    add (Some 1%positive) (_libraryList sample) (heap sample) = Done (l', h') /\
    is_list h' l' [1%positive] /\
    _last l' = Some 1%positive.
Proof.
  destruct (add_makes_last (heap sample) (_libraryList sample) [1; 2]%positive 1%positive _
              sample_libraries eq_refl) as (l' & h' & Hadd & _ & Hcut & Hlast & _).
  exists l', h'. split; [exact Hadd|]. split; [|exact Hlast].
  exact (Hcut [] [2%positive] eq_refl).
Defined.

Lemma add_then_remove_witness :
  ('(l1, h1) ← add (Some 3%positive) (_libraryList sample) (heap sample);
   remove (Some 3%positive) l1 h1)
  = Done (_libraryList sample, heap sample).
Proof.
  rewrite (add_then_remove (heap sample) (_libraryList sample) [1; 2]%positive 3%positive _
             sample_libraries eq_refl (sample_disjoint' 3%positive ltac:(left))).
  reflexivity.
Defined.

Lemma convert_all_moves_everything_witness :
  exists st',
    convert_all [1; 2]%positive sample = Done st' /\
    is_list (heap st') (_agentList st') [3; 1; 2]%positive /\
    init_libraries_at_startup st' = false.
Proof.
  destruct (convert_all_moves_everything [1; 2]%positive [3]%positive sample
              sample_libraries sample_agents sample_disjoint)
    as (st' & Hall & _ & Hags & Hinit & _).
  exists st'. split; [exact Hall|]. split; [exact Hags | exact Hinit].
Defined.

Lemma convert_twice_fails_witness :
  (st' ← convert_library_to_agent (Some 2%positive) sample;
   convert_library_to_agent (Some 2%positive) st')
  = Fatal "always should be found".
Proof.
  apply (convert_twice_fails sample 2%positive [1; 2]%positive [3]%positive
           sample_libraries sample_agents ltac:(right; left) sample_disjoint).
Defined.

Lemma add_init_library_registers_witness :
  exists st' (p : positive),
    add_init_library "jdwp" None sample = Done st' /\
    is_list (heap st') (_libraryList st') [1; 2; p]%positive /\
    init_libraries_at_startup st' = true.
Proof.
  destruct (add_init_library_registers sample [1; 2]%positive [3]%positive "jdwp" None
              sample_libraries sample_agents sample_disjoint)
    as (st' & p & Hadd & _ & Hlibs & _ & _ & _ & Hinit).
  exists st', p. split; [exact Hadd|]. split; [exact Hlibs | exact Hinit].
Defined.

Lemma add_init_agent_registers_witness :
  exists st' (p : positive),
    add_loaded_agent_new "instrument" None true 42 sample = Done st' /\
    is_list (heap st') (_agentList st') [3; p]%positive /\
    exists n, heap st' !! p = Some n /\ os_lib n = 42%Z.
Proof.
  destruct (add_init_agent_registers sample [1; 2]%positive [3]%positive "instrument" None
              true 42 sample_libraries sample_agents sample_disjoint')
    as (_ & st' & p & Hadd & _ & Hags & _ & (n & Hn & Hd) & _).
  exists st', p. split; [exact Hadd|]. split; [exact Hags|].
  exists n. split; [exact Hn|]. unfold os_lib. unfold descriptor in Hd. congruence.
Defined.

Lemma remove_on_a_cycle_never_returns_witness :
  remove (Some 3%positive) (_libraryList sample_cyclic) (heap sample_cyclic) = Diverges.
Proof.
  refine (proj1 (proj2 (remove_on_a_cycle_never_returns sample_cyclic (Some 3%positive) []
                   [2%positive] 1%positive eq_refl _ _))).
  - split; [reflexivity|]. eexists. split; [reflexivity|].
    split; [reflexivity|]. eexists. split; reflexivity.
  - intros x Hx [= ->]. simpl in Hx.
    apply elem_of_cons in Hx as [Hx|Hx]; [discriminate Hx|].
    apply list_elem_of_singleton in Hx. discriminate Hx.
Defined.

Lemma setters_keep_the_lists_witness :
  exists h',
    invoke (run_setter call_set_valid) (Some 1%positive) (heap sample) = Done h' /\
    is_list h' (_libraryList sample) [1; 2]%positive /\
    (exists n, h' !! 1%positive = Some n /\ valid n = true).
Proof.
  destruct (setters_keep_the_lists (heap sample) 1%positive _ call_set_valid eq_refl)
    as (h' & Hinv & Hn & _ & Hlists & _).
  exists h'. split; [exact Hinv|]. split; [exact (Hlists _ _ sample_libraries)|].
  eexists. split; [exact Hn | reflexivity].
Defined.

End AgentsMore.

(** ** Path strings and the quick accessors *)

Module PathsMore.
Import Paths PathsFacts.

(** The exact result of [set_value] on a path string that holds nothing. *)
Lemma set_value_null_exact value (h : cheap) s :
  read h value = Done s ->
  String.length s + 1 <= available h ->
  let p := fresh (dom (buffers h)) in
  buffers h !! p = None /\
  set_value value {| _value := NULL |} h
  = Done (true, {| _value := heap_ptr p |},
          {| buffers := <[p := {| capacity := String.length s + 1; text := Some s |}]>
                          (buffers h);
             available := available h - (String.length s + 1) |}).
Proof.
  intros Hs Havail.
  destruct (AllocateHeap_ok (String.length s + 1) h Havail) as [Hfresh Halloc].
  intros p. split; [exact Hfresh|]. fold p in Hfresh, Halloc.
  assert (Hvalue : value <> heap_ptr p) by (eapply read_not_fresh; eauto).
  unfold set_value. simpl _value.
  rewrite bool_decide_eq_false_2 by (intros H; apply H; reflexivity).
  rewrite bind_Done. unfold strlen. rewrite Hs, !bind_Done, Halloc.
  simpl _value. rewrite bool_decide_eq_true_2 by discriminate.
  unfold assert. rewrite bind_Done.
  erewrite strcpy_heap; cycle 1.
  { rewrite <- Hs. apply read_frame. intros v ->. simpl.
    apply lookup_insert_ne. congruence. }
  { exact Hvalue. }
  { simpl. apply lookup_insert_eq. }
  { simpl. lia. }
  rewrite bind_Done. simpl. rewrite insert_insert_eq. reflexivity.
Qed.

(** X11: [set_value] frees the old buffer before it allocates the new
    one, so the call succeeds as soon as the free bytes and the old buffer
    together can hold the new string.  The path string then owns a buffer of
    exactly the string's length plus one that holds a copy of the
    string (it does not alias the argument), the free bytes are accounted
    for exactly, no other buffer is touched and the number of live buffers
    is unchanged. *)
Theorem set_value_reuses_the_freed_bytes :
  forall (value : char_ptr) (h : cheap) (a : positive) (b : buffer) (s : string),
    buffers h !! a = Some b ->
    read h value = Done s ->
    value <> heap_ptr a ->
    String.length s + 1 <= available h + capacity b ->
    exists p h',
      set_value value {| _value := heap_ptr a |} h
      = Done (true, {| _value := heap_ptr p |}, h') /\
      buffers h' !! p = Some {| capacity := String.length s + 1; text := Some s |} /\
      heap_ptr p <> value /\
      available h' + (String.length s + 1) = available h + capacity b /\
      (p <> a -> buffers h' !! a = None) /\
      (forall c, c <> a -> c <> p -> buffers h' !! c = buffers h !! c) /\
      size (buffers h') = size (buffers h).
Proof.
  intros value h a b s Hb Hs Hne Havail.
  rewrite (set_value_frees value a b h Hb).
  set (h1 := {| buffers := delete a (buffers h);
                available := available h + capacity b |}).
  assert (Hs1 : read h1 value = Done s).
  { rewrite <- Hs. apply read_frame. intros v ->. simpl.
    apply lookup_delete_ne. congruence. }
  destruct (set_value_null_exact value h1 s Hs1 Havail) as [Hfresh ->].
  set (p := fresh (dom (buffers h1))) in *.
  eexists p, _. split; [reflexivity|]. simpl.
  split; [apply lookup_insert_eq|].
  split; [intros E; symmetry in E; revert E; eapply read_not_fresh; eauto|].
  split; [lia|]. split; [|split].
  - intros Hpa. rewrite lookup_insert_ne by exact Hpa. apply lookup_delete_eq.
  - intros c Hca Hcp. rewrite lookup_insert_ne by congruence.
    apply lookup_delete_ne. congruence.
  - rewrite map_size_insert_None by exact Hfresh.
    pose proof (map_size_delete_Some a (buffers h) (mk_is_Some _ _ Hb)). simpl in *.
    assert (size (buffers h) <> 0).
    { intros E. apply map_size_empty_inv in E. rewrite E in Hb.
      rewrite lookup_empty in Hb. discriminate. }
    lia.
Qed.


(** X12: [set_value] must not be given the stored string itself: the
    buffer is freed first and [strlen] then reads freed memory.  The same
    holds for [set_writeable_value] on a writeable property. *)
Theorem set_value_of_own_buffer_is_undefined :
  forall (h : cheap) (a : positive) (b : buffer),
    buffers h !! a = Some b ->
    set_value (heap_ptr a) {| _value := heap_ptr a |} h = Undefined /\
    (forall (this : SystemProperty),
       _value (super this) = heap_ptr a -> writeable this = true ->
       set_writeable_value (heap_ptr a) this h = Undefined).
Proof.
  intros h a b Hb.
  assert (H : set_value (heap_ptr a) {| _value := heap_ptr a |} h = Undefined).
  { rewrite (set_value_frees _ a b h Hb). unfold set_value. simpl _value.
    rewrite bool_decide_eq_false_2 by (intros H; apply H; reflexivity).
    rewrite bind_Done. unfold strlen, read. simpl. rewrite lookup_delete_eq. reflexivity. }
  split; [exact H|]. intros this Hthis Hw. unfold set_writeable_value. rewrite Hw.
  destruct this as [[v] k n i w']. simpl in Hthis. subst v. simpl super.
  rewrite H. reflexivity.
Qed.

Lemma write_overflow h a b s :
  buffers h !! a = Some b -> capacity b < String.length s + 1 ->
  write (heap_ptr a) s h = Undefined.
Proof.
  intros Hb Hc. unfold write. rewrite Hb.
  destruct (Nat.leb_spec (String.length s + 1) (capacity b)); [lia | reflexivity].
Qed.

Lemma strcat_overflow h a c d src s :
  buffers h !! a = Some {| capacity := c; text := Some d |} ->
  read h src = Done s ->
  c < String.length d + String.length s + 1 ->
  strcat (heap_ptr a) src h = Undefined.
Proof.
  intros Ha Hs Hc. unfold strcat.
  rewrite (read_heap _ _ _ _ Ha), bind_Done, Hs, bind_Done.
  destruct (bool_decide (heap_ptr a = src)); [reflexivity|].
  apply (write_overflow h a _ _ Ha). simpl. rewrite length_append. lia.
Qed.

Lemma size_delete_insert {A} (m : gmap positive A) a sp x :
  is_Some (m !! a) -> m !! sp = None -> size (delete a (<[sp := x]> m)) = size m.
Proof.
  intros Ha Hsp.
  assert (a <> sp) by (intros ->; destruct Ha; congruence).
  rewrite map_size_delete_Some by (rewrite lookup_insert_ne by congruence; exact Ha).
  rewrite map_size_insert_None by exact Hsp. reflexivity.
Qed.

Section append.
Variable sep : string.

(** The exact result of [append_value] on a path string that holds [s]. *)
Lemma append_value_exact (h : cheap) (value : char_ptr) (a : positive) (c : nat)
    (s p : string) :
  buffers h !! a = Some {| capacity := c; text := Some s |} ->
  value <> NULL -> read h value = Done p ->
  String.length sep <= 1 ->
  String.length p + String.length s + 2 <= available h ->
  let sp := fresh (dom (buffers h)) in
  buffers h !! sp = None /\
  append_value sep value {| _value := heap_ptr a |} h =
  Done ({| _value := heap_ptr sp |},
        {| buffers :=
             delete a (<[sp := {| capacity := String.length p + String.length s + 2;
                                  text := Some ((s ++ sep) ++ p)%string |}]> (buffers h));
           available := available h - (String.length p + String.length s + 2) + c |}).
Proof.
  intros Ha Hnull Hp Hsep Havail.
  destruct (AllocateHeap_ok (String.length p + String.length s + 2) h Havail)
    as [Hfresh Halloc].
  intros sp. fold sp in Hfresh, Halloc. split; [exact Hfresh|].
  assert (Hne : sp <> a) by (intros E; rewrite E in Hfresh; congruence).
  assert (Hvalue : value <> heap_ptr sp) by (eapply read_not_fresh; eauto).
  assert (Hs : read h (heap_ptr a) = Done s) by (eapply read_heap; eauto).
  unfold append_value. simpl _value.
  rewrite bool_decide_eq_true_2 by exact Hnull.
  rewrite bool_decide_eq_true_2 by discriminate.
  unfold strlen. rewrite Hp, Hs. simpl. rewrite Halloc. simpl.
  set (n := String.length p + String.length s + 2).
  erewrite strcpy_heap; cycle 1.
  { apply read_heap with (c := c). simpl. rewrite lookup_insert_ne by exact Hne. exact Ha. }
  { congruence. }
  { simpl. apply lookup_insert_eq. }
  { simpl. unfold n. lia. }
  simpl. rewrite insert_insert_eq.
  erewrite strcat_heap; cycle 1.
  { simpl. apply lookup_insert_eq. }
  { reflexivity. }
  { discriminate. }
  { unfold n. lia. }
  simpl. rewrite insert_insert_eq.
  erewrite strcat_heap; cycle 1.
  { simpl. apply lookup_insert_eq. }
  { rewrite <- Hp. apply read_frame. intros v ->. simpl.
    apply lookup_insert_ne. congruence. }
  { exact Hvalue. }
  { rewrite length_append. unfold n. lia. }
  simpl. rewrite insert_insert_eq.
  rewrite lookup_insert_ne by exact Hne. rewrite Ha. simpl. reflexivity.
Qed.

(** X13: two appends in a row give the stored string, the separator, the
    first argument, the separator and the second argument; the intermediate
    buffer is freed again, so the number of live buffers is unchanged, no
    buffer other than the path string's own is touched, and the free bytes
    drop by the size of the final buffer less the size of the original one. *)
Theorem append_value_twice :
  forall (h : cheap) (a : positive) (c : nat) (s p q : string) (v1 v2 : char_ptr),
    buffers h !! a = Some {| capacity := c; text := Some s |} ->
    v1 <> NULL -> read h v1 = Done p ->
    v2 <> NULL -> read h v2 = Done q -> v2 <> heap_ptr a ->
    String.length sep <= 1 ->
    (String.length p + String.length s + 2) +
    (String.length q + String.length (s ++ sep ++ p) + 2) <= available h ->
    exists ps h',
      ('(ps1, h1) ← append_value sep v1 {| _value := heap_ptr a |} h;
       append_value sep v2 ps1 h1) = Done (ps, h') /\
      stored h' ps = Done (s ++ sep ++ p ++ sep ++ q)%string /\
      (forall b, b <> a -> heap_ptr b <> _value ps ->
         buffers h' !! b = buffers h !! b) /\
      size (buffers h') = size (buffers h) /\
      available h' + (String.length q + String.length (s ++ sep ++ p) + 2)
      = available h + c.
Proof.
  intros h a c s p q v1 v2 Ha Hv1 Hp Hv2 Hq Hv2a Hsep Havail.
  destruct (append_value_exact h v1 a c s p Ha Hv1 Hp Hsep) as [Hfresh ->]; [lia|].
  set (sp := fresh (dom (buffers h))) in *.
  set (n1 := String.length p + String.length s + 2) in *.
  assert (Hne : sp <> a) by (intros E; rewrite E in Hfresh; congruence).
  rewrite bind_Done. cbv beta iota.
  set (h1 := {| buffers := delete a (<[sp := _]> (buffers h)); available := _ |}).
  assert (Hsp1 : buffers h1 !! sp
                 = Some {| capacity := n1; text := Some ((s ++ sep) ++ p)%string |}).
  { simpl. rewrite lookup_delete_ne by congruence. apply lookup_insert_eq. }
  assert (Hq1 : read h1 v2 = Done q).
  { rewrite <- Hq. apply read_frame. intros v ->. simpl.
    rewrite lookup_delete_ne by congruence. apply lookup_insert_ne.
    intros <-. apply (read_not_fresh _ _ _ _ Hq Hfresh). reflexivity. }
  assert (Hlen : String.length ((s ++ sep) ++ p) = String.length (s ++ sep ++ p)).
  { rewrite append_assoc. reflexivity. }
  destruct (append_value_exact h1 v2 sp n1 _ q Hsp1 Hv2 Hq1 Hsep) as [Hfresh2 ->].
  { rewrite Hlen. simpl. lia. }
  eexists _, _. split; [reflexivity|].
  set (sp2 := fresh (dom (buffers h1))) in *.
  assert (Hne2 : sp2 <> sp) by (intros E; rewrite E in Hfresh2; congruence).
  unfold stored. simpl. split; [|split; [|split]].
  - rewrite lookup_delete_ne by congruence. rewrite lookup_insert_eq.
    rewrite !append_assoc. reflexivity.
  - intros b Hba Hb2. assert (Hbsp2 : b <> sp2) by congruence.
    destruct (decide (b = sp)) as [->|Hbsp].
    + rewrite lookup_delete_eq. symmetry. exact Hfresh.
    + rewrite lookup_delete_ne by congruence. rewrite lookup_insert_ne by congruence.
      rewrite lookup_delete_ne by congruence. apply lookup_insert_ne. congruence.
  - rewrite size_delete_insert; [|eexists; exact Hsp1 | exact Hfresh2].
    simpl. apply size_delete_insert; [eexists; exact Ha | exact Hfresh].
  - rewrite Hlen. simpl in Havail |- *. lia.
Qed.

(** X14: the buffer of [append_value] has room for a separator of one
    character only: with a separator of two or more characters and a stored
    string, one of the two [strcat] calls writes past the end of the new
    buffer. *)
Theorem append_value_needs_a_one_character_separator :
  forall (h : cheap) (a : positive) (c : nat) (s p : string) (value : char_ptr),
    buffers h !! a = Some {| capacity := c; text := Some s |} ->
    value <> NULL -> read h value = Done p ->
    String.length p + String.length s + 2 <= available h ->
    2 <= String.length sep ->
    append_value sep value {| _value := heap_ptr a |} h = Undefined.
Proof.
  intros h a c s p value Ha Hnull Hp Havail Hsep.
  destruct (AllocateHeap_ok (String.length p + String.length s + 2) h Havail)
    as [Hfresh Halloc].
  set (sp := fresh (dom (buffers h))) in *.
  assert (Hne : sp <> a) by (intros E; rewrite E in Hfresh; congruence).
  assert (Hvalue : value <> heap_ptr sp) by (eapply read_not_fresh; eauto).
  assert (Hs : read h (heap_ptr a) = Done s) by (eapply read_heap; eauto).
  unfold append_value. simpl _value.
  rewrite bool_decide_eq_true_2 by exact Hnull.
  rewrite bool_decide_eq_true_2 by discriminate.
  unfold strlen. rewrite Hp, Hs. simpl. rewrite Halloc. simpl.
  set (n := String.length p + String.length s + 2).
  erewrite strcpy_heap; cycle 1.
  { apply read_heap with (c := c). simpl. rewrite lookup_insert_ne by exact Hne. exact Ha. }
  { congruence. }
  { simpl. apply lookup_insert_eq. }
  { simpl. unfold n. lia. }
  simpl. rewrite insert_insert_eq.
  destruct (decide (String.length s + String.length sep + 1 <= n)) as [Hfits|Hover].
  - (* the separator still fits, the argument does not *)
    erewrite strcat_heap; cycle 1.
    { simpl. apply lookup_insert_eq. }
    { reflexivity. }
    { discriminate. }
    { exact Hfits. }
    simpl. rewrite insert_insert_eq.
    erewrite strcat_overflow; [reflexivity | simpl; apply lookup_insert_eq | |].
    + rewrite <- Hp. apply read_frame. intros v ->. simpl.
      apply lookup_insert_ne. congruence.
    + rewrite length_append. unfold n. lia.
  - erewrite strcat_overflow; [reflexivity | simpl; apply lookup_insert_eq | reflexivity |].
    lia.
Qed.

(** X15: [append_value] with NULL does nothing; on a path string that
    holds nothing it stores a copy of the argument alone, without a
    separator, in a new buffer of the argument's length plus two. *)
Theorem append_value_to_nothing :
  forall (this : PathString) (h : cheap) (value : char_ptr) (p : string),
    append_value sep NULL this h = Done (this, h) /\
    (_value this = NULL -> read h value = Done p ->
     String.length p + 2 <= available h ->
     exists sp,
       buffers h !! sp = None /\
       append_value sep value this h =
       Done ({| _value := heap_ptr sp |},
             {| buffers := <[sp := {| capacity := String.length p + 2; text := Some p |}]>
                             (buffers h);
                available := available h - (String.length p + 2) |})).
Proof.
  intros this h value p. split; [reflexivity|]. intros Hthis Hp Havail.
  destruct (AllocateHeap_ok (String.length p + 2) h Havail) as [Hfresh Halloc].
  set (sp := fresh (dom (buffers h))) in *. exists sp. split; [exact Hfresh|].
  assert (Hnull : value <> NULL) by (intros ->; discriminate Hp).
  assert (Hvalue : value <> heap_ptr sp) by (eapply read_not_fresh; eauto).
  unfold append_value. rewrite Hthis.
  rewrite bool_decide_eq_true_2 by exact Hnull.
  rewrite bool_decide_eq_false_2 by (intros H; apply H; reflexivity).
  unfold strlen. rewrite Hp. simpl. rewrite Halloc. simpl.
  erewrite strcpy_heap; cycle 1.
  { rewrite <- Hp. apply read_frame. intros v ->. simpl.
    apply lookup_insert_ne. congruence. }
  { exact Hvalue. }
  { simpl. apply lookup_insert_eq. }
  { simpl. lia. }
  simpl. rewrite insert_insert_eq. reflexivity.
Qed.

End append.
(** X16: the constructor stores a copy of its argument in a new buffer
    and leaves the argument readable; the destructor frees that buffer and
    gives back the heap exactly as it was before the construction;
    destroying a path string that holds nothing changes nothing.  The
    constructor does not test the result of the allocation: when it fails,
    [strcpy] writes through NULL. *)
Theorem PathString_constructor_destructor :
  forall (value : char_ptr) (h : cheap) (s : string),
    read h value = Done s ->
    (String.length s + 1 <= available h ->
     exists p h1,
       new_PathString value h = Done ({| _value := heap_ptr p |}, h1) /\
       buffers h !! p = None /\
       stored h1 {| _value := heap_ptr p |} = Done s /\
       read h1 value = Done s /\
       destroy_PathString {| _value := heap_ptr p |} h1 = Done ({| _value := NULL |}, h) /\
       destroy_PathString {| _value := NULL |} h = Done ({| _value := NULL |}, h)) /\
    (available h < String.length s + 1 -> new_PathString value h = Undefined).
Proof.
  intros value h s Hs.
  assert (Hnull : value <> NULL) by (intros ->; discriminate Hs).
  split.
  - intros Havail.
    destruct (AllocateHeap_ok (String.length s + 1) h Havail) as [Hfresh Halloc].
    set (p := fresh (dom (buffers h))) in *.
    assert (Hvalue : value <> heap_ptr p) by (eapply read_not_fresh; eauto).
    unfold new_PathString. rewrite bool_decide_eq_false_2 by exact Hnull.
    unfold strlen. rewrite Hs, bind_Done, bind_Done, Halloc.
    erewrite strcpy_heap; cycle 1.
    { rewrite <- Hs. apply read_frame. intros v ->. simpl.
      apply lookup_insert_ne. congruence. }
    { exact Hvalue. }
    { simpl. apply lookup_insert_eq. }
    { simpl. lia. }
    rewrite bind_Done. simpl. rewrite insert_insert_eq.
    eexists p, _. split; [reflexivity|]. split; [exact Hfresh|].
    split; [unfold stored; simpl; rewrite lookup_insert_eq; reflexivity|].
    split.
    { rewrite <- Hs. apply read_frame. intros v ->. simpl.
      apply lookup_insert_ne. congruence. }
    split; [|reflexivity].
    unfold destroy_PathString. simpl _value.
    rewrite bool_decide_eq_true_2 by discriminate.
    simpl. rewrite lookup_insert_eq. simpl.
    rewrite delete_insert_id by exact Hfresh.
    destruct h as [bs av]. simpl in *. do 3 f_equal. lia.
  - intros Hlow. unfold new_PathString. rewrite bool_decide_eq_false_2 by exact Hnull.
    unfold strlen. rewrite Hs, bind_Done, bind_Done, AllocateHeap_fail by exact Hlow.
    unfold strcpy. rewrite Hs. simpl.
    rewrite bool_decide_eq_false_2 by congruence. reflexivity.
Qed.

Lemma call_set_value_result (st : properties) (h : cheap) (value : char_ptr)
    (s : string) (a : positive) (this : SystemProperty) :
  objects st !! a = Some this ->
  read h value = Done s ->
  value <> _value (super this) ->
  (_value (super this) = NULL \/
   exists b, _value (super this) = heap_ptr b /\ is_Some (buffers h !! b)) ->
  String.length s + 1 <= available h ->
  exists p h',
    call_set_value (Some a) value st h =
    Done (with_objects (<[a := with_super {| _value := heap_ptr p |} this]> (objects st)) st,
          h') /\
    read h' (heap_ptr p) = Done s /\
    heap_ptr p <> value.
Proof.
  intros Ha Hs Hne Hown Havail. unfold call_set_value. rewrite Ha.
  destruct this as [[v] k n i w]. simpl in *.
  destruct Hown as [-> | (b & -> & [bf Hb])].
  - destruct (set_value_null_exact value h s Hs Havail) as [Hfresh ->].
    eexists _, _. split; [reflexivity|]. split.
    + simpl. rewrite lookup_insert_eq. reflexivity.
    + intros E; symmetry in E; revert E; eapply read_not_fresh; eauto.
  - rewrite (set_value_frees value b bf h Hb).
    set (h1 := {| buffers := delete b (buffers h);
                  available := available h + capacity bf |}).
    assert (Hs1 : read h1 value = Done s).
    { rewrite <- Hs. apply read_frame. intros v ->. simpl.
      apply lookup_delete_ne. congruence. }
    destruct (set_value_null_exact value h1 s Hs1) as [Hfresh ->]; [simpl; lia|].
    eexists _, _. split; [reflexivity|]. split.
    + simpl. rewrite lookup_insert_eq. reflexivity.
    + intros E; symmetry in E; revert E; eapply read_not_fresh; eauto.
Qed.

(** X17: [set_java_home], [set_dll_dir] and [set_library_path] call the
    base-class [set_value] and so replace the value of their property
    whether it is writeable or not: afterwards the property's value is a
    copy of the argument, its key and its writeable flag are unchanged, and
    no other property object is written. *)
Theorem quick_setters_ignore_writeable :
  forall (set : char_ptr -> properties -> cheap -> outcome (properties * cheap))
         (field : properties -> option positive)
         (st : properties) (h : cheap) (value : char_ptr) (s : string)
         (a : positive) (this : SystemProperty),
    (set, field) ∈ [(set_java_home, _java_home);
                    (set_dll_dir, _sun_boot_library_path);
                    (set_library_path, _java_library_path)] ->
    field st = Some a ->
    objects st !! a = Some this ->
    read h value = Done s ->
    value <> _value (super this) ->
    (_value (super this) = NULL \/
     exists b, _value (super this) = heap_ptr b /\ is_Some (buffers h !! b)) ->
    String.length s + 1 <= available h ->
    exists st' h' p this',
      set value st h = Done (st', h') /\
      call_value (field st') st' = Done p /\
      read h' p = Done s /\
      p <> value /\
      objects st' !! a = Some this' /\
      key this' = key this /\
      writeable this' = writeable this /\
      (forall a', a' <> a -> objects st' !! a' = objects st !! a') /\
      field st' = field st.
Proof.
  intros set field st h value s a this Hin Hfield Ha Hs Hne Hown Havail.
  destruct (call_set_value_result st h value s a this Ha Hs Hne Hown Havail)
    as (p & h' & Hcall & Hread & Hpv).
  assert (Hset : set value st h = call_set_value (field st) value st h /\
                 forall objs, field (with_objects objs st) = field st).
  { repeat (apply elem_of_cons in Hin as [Hin|Hin];
            [inversion Hin; subst; split; reflexivity|]).
    apply elem_of_nil in Hin. contradiction. }
  destruct Hset as [Hset Hsame].
  eexists _, h', (heap_ptr p), _. rewrite Hset, Hfield.
  split; [exact Hcall|]. rewrite Hsame, Hfield.
  split; [unfold call_value; simpl; rewrite lookup_insert_eq; reflexivity|].
  split; [exact Hread|]. split; [exact Hpv|].
  split; [simpl; apply lookup_insert_eq|].
  split; [reflexivity|]. split; [reflexivity|].
  split; [intros a' Ha'; simpl; apply lookup_insert_ne; congruence|].
  reflexivity.
Qed.

Lemma set_value_reuses_the_freed_bytes_witness :
  exists p h',
    set_value (static_ptr "/c") {| _value := heap_ptr 1 |}
      {| buffers := buffers sample_heap; available := 0 |}
    = Done (true, {| _value := heap_ptr p |}, h') /\
    available h' = 2.
Proof.
  destruct (set_value_reuses_the_freed_bytes (static_ptr "/c")
              {| buffers := buffers sample_heap; available := 0 |} 1%positive
              {| capacity := 5; text := Some "/a/b"%string |} "/c"
              eq_refl eq_refl ltac:(discriminate) ltac:(simpl; lia))
    as (p & h' & Hset & _ & _ & Hav & _).
  exists p, h'. split; [exact Hset|]. simpl in Hav. lia.
Defined.

Lemma set_value_of_own_buffer_is_undefined_witness :
  set_writeable_value (heap_ptr 1) (sample_property true) sample_heap = Undefined.
Proof.
  apply (proj2 (set_value_of_own_buffer_is_undefined sample_heap 1%positive
                  {| capacity := 5; text := Some "/a/b"%string |} eq_refl)
           (sample_property true)); reflexivity.
Defined.

Lemma append_value_twice_witness :
  exists ps h',
    ('(ps1, h1) ← append_value ":" (static_ptr "/c") {| _value := heap_ptr 1 |} sample_heap;
     append_value ":" (static_ptr "/d") ps1 h1) = Done (ps, h') /\
    stored h' ps = Done "/a/b:/c:/d"%string /\
    size (buffers h') = 1.
Proof.
  destruct (append_value_twice ":" sample_heap 1%positive 5 "/a/b" "/c" "/d"
              (static_ptr "/c") (static_ptr "/d")
              eq_refl ltac:(discriminate) eq_refl ltac:(discriminate) eq_refl
              ltac:(discriminate) ltac:(simpl; lia) ltac:(simpl; lia))
    as (ps & h' & Hrun & Hstored & _ & Hsize & _).
  exists ps, h'. split; [exact Hrun|]. split; [exact Hstored|].
  rewrite Hsize. reflexivity.
Defined.

Lemma append_value_needs_a_one_character_separator_witness :
  append_value ", " (static_ptr "/c") {| _value := heap_ptr 1 |} sample_heap = Undefined.
Proof.
  apply (append_value_needs_a_one_character_separator ", " sample_heap 1%positive 5
           "/a/b" "/c" (static_ptr "/c") eq_refl ltac:(discriminate) eq_refl);
    simpl; lia.
Defined.

Lemma append_value_to_nothing_witness :
  exists sp h',
    append_value ":" (static_ptr "/c") {| _value := NULL |} sample_heap
    = Done ({| _value := heap_ptr sp |}, h') /\
    read h' (heap_ptr sp) = Done "/c"%string /\
    available h' = 60.
Proof.
  destruct (proj2 (append_value_to_nothing ":" {| _value := NULL |} sample_heap
                     (static_ptr "/c") "/c") eq_refl eq_refl ltac:(simpl; lia))
    as (sp & _ & Happ).
  eexists sp, _. split; [exact Happ|]. simpl. rewrite lookup_insert_eq.
  split; reflexivity.
Defined.

Lemma PathString_constructor_destructor_witness :
  exists ps h1,
    new_PathString (static_ptr "/c") sample_heap = Done (ps, h1) /\
    stored h1 ps = Done "/c"%string /\
    destroy_PathString ps h1 = Done ({| _value := NULL |}, sample_heap).
Proof.
  destruct (proj1 (PathString_constructor_destructor (static_ptr "/c") sample_heap "/c"
                     eq_refl) ltac:(simpl; lia))
    as (p & h1 & Hnew & _ & Hstored & _ & Hdel & _).
  exists {| _value := heap_ptr p |}, h1.
  split; [exact Hnew|]. split; [exact Hstored | exact Hdel].
Defined.

Lemma quick_setters_ignore_writeable_witness :
  exists st' h' p,
    set_java_home (static_ptr "/opt/jdk") sample_properties sample_heap = Done (st', h') /\
    get_java_home st' = Done p /\
    read h' p = Done "/opt/jdk"%string.
Proof.
  destruct (quick_setters_ignore_writeable set_java_home _java_home sample_properties
              sample_heap (static_ptr "/opt/jdk") "/opt/jdk" 1%positive _
              ltac:(left) eq_refl eq_refl eq_refl ltac:(discriminate)
              ltac:(right; exists 1%positive; split; [reflexivity | eexists; reflexivity])
              ltac:(simpl; lia))
    as (st' & h' & p & this' & Hset & Hget & Hread & _).
  exists st', h', p. split; [exact Hset|]. split; [exact Hget | exact Hread].
Defined.

End PathsMore.

(** ** The append index *)

Module BootAppendMore.
Import BootAppend BootAppendFacts.
Local Open Scope Z_scope.

(** X10: after any sequence of calls of
    [set_bootclassloader_append_index], an index that was set before is
    unchanged, and an index that was unset holds the first value other than
    -1 of the sequence, or is still unset when there is none. *)
Theorem set_all_keeps_the_first_real_value :
  forall (values : list Z) (st : statics),
    bootclassloader_append_index (set_all values st) =
    if bootclassloader_append_index st =? -1
    then default (-1) (List.find (fun v => negb (v =? -1)) values)
    else bootclassloader_append_index st.
Proof.
  induction values as [|v vs IH]; intros st.
  - simpl. destruct (Z.eqb_spec (bootclassloader_append_index st) (-1)) as [E|E];
      [exact E | reflexivity].
  - change (set_all (v :: vs) st) with (set_all vs (set_bootclassloader_append_index v st)).
    rewrite IH, set_index_unfold. simpl.
    destruct (Z.eqb_spec (bootclassloader_append_index st) (-1)) as [E|E].
    + destruct (Z.eqb_spec v (-1)) as [Ev|Ev]; simpl; [reflexivity|].
      reflexivity.
    + destruct (Z.eqb_spec (bootclassloader_append_index st) (-1)); [contradiction|].
      reflexivity.
Qed.

End BootAppendMore.
